(** * Number Runner: gate generation, collision detection and scoring

    A shallow embedding of the game logic of [src/app/index.tsx]
    (component [NumberRunner] and its helpers) and the properties of the
    gate-resolution engine proved about it.

    Numbers.  JavaScript numbers are modelled by exact numbers: the score
    and the operands, which the code only ever builds from integers, are
    in [Z]; positions, distances and the values of [Math.random] are in
    [Q].  Rounding of binary floating point is therefore not part of the
    model.

    React.  A render captures [playerValue] and [targetLane] in the
    closure of [checkCollision]; [setPlayerValue] only takes effect at the
    next render, whereas the refs [processedGates] and [popupIdCounter]
    are mutated at once.  One call of the frame callback is one tick, and
    the state a tick returns is the one committed by the render that
    follows it. *)

From Stdlib Require Import ZArith QArith Qabs Qround Lqa Lia String List.
From stdpp Require Import gmap pretty.
Import ListNotations.

#[local] Set Warnings "-clear-no-such-hyp".

Open Scope Z_scope.

(** ** Types and constants *)

Inductive OperationType := multiply | add | subtract.

Record GateOption := {
  op_type : OperationType;
  op_value : Z;
  op_color : string;
  op_label : string
}.

Record ScorePopup := {
  popup_id : Z;
  popup_value : string;
  popup_color : string;
  popup_x : Q;
  popup_y : Q
}.

Record GateData := {
  gate_id : Z;
  zPosition : Q;
  leftOption : GateOption;
  rightOption : GateOption
}.

Record GameConfig := {
  playerSpeed : Q;
  playerLaneSpeed : Q;
  lanePositions : list Q;
  gateSpacing : Q;
  gateWidth : Q;
  gateHeight : Q;
  totalGates : Z;
  collisionThreshold : Q
}.

Definition GAME_CONFIG : GameConfig := {|
  playerSpeed := 1 # 10;
  playerLaneSpeed := 15 # 100;
  lanePositions := [(-2)%Q; 2%Q];
  gateSpacing := 15;
  gateWidth := 3;
  gateHeight := 4;
  totalGates := 10;
  collisionThreshold := 2
|}.

(** The ambient [window] object read by [checkCollision]. *)
Record Window := {
  innerWidth : Q;
  innerHeight : Q
}.

(** ** The random source

    [Math.random] is a stream of numbers consumed in order; a computation
    that draws from it threads the index of the next number.  [None]
    stands for the [TypeError] of reading a property of [undefined]. *)

Definition RandomSource := nat -> Q.

Definition Rand (A : Type) := RandomSource -> nat -> option (A * nat).

Definition ret {A} (a : A) : Rand A := fun _ k => Some (a, k).

Definition bind {A B} (c : Rand A) (f : A -> Rand B) : Rand B :=
  fun src k =>
    match c src k with
    | Some (a, k') => f a src k'
    | None => None
    end.

Definition throw {A} : Rand A := fun _ _ => None.

Definition Math_random : Rand Q := fun src k => Some (src k, S k).

Notation "'call' x <~ c 'in' f" := (bind c (fun x => f))
  (at level 10, x name, c at level 100, f at level 200,
   format "'[v' 'call'  x  <~  c  'in'  '/' f ']'").

(** [arr[i]] followed by a property access: fails outside the array. *)
Definition at_index {A} (arr : list A) (i : Z) : Rand A :=
  if i <? 0 then throw
  else match nth_error arr (Z.to_nat i) with
       | Some a => ret a
       | None => throw
       end.

(** A random source is well formed when every number lies in [0, 1). *)
Definition unit_interval (src : RandomSource) : Prop :=
  forall k, (0 <= src k)%Q /\ (src k < 1)%Q.

(** ** Helper functions *)

Definition operations : list (OperationType * (Z * Z)) :=
  [ (multiply, (2, 4)); (add, (10, 100)); (subtract, (5, 50)) ].

Definition isPositive (t : OperationType) : bool :=
  match t with
  | multiply | add => true
  | subtract => false
  end.

Definition symbol (t : OperationType) : string :=
  match t with
  | multiply => "×"
  | add => "+"
  | subtract => "−"
  end.

(** The part of [getRandomOption] that follows the two draws. *)
Definition makeOption (t : OperationType) (value : Z) : GateOption :=
  let color := if isPositive t then "#00ff88"%string else "#ff3366"%string in
  let label := (symbol t ++ pretty value)%string in
  {| op_type := t; op_value := value; op_color := color; op_label := label |}.

Definition getRandomOption : Rand GateOption :=
  call r <~ Math_random in
  call op <~ at_index operations
          (Qfloor (r * inject_Z (Z.of_nat (length operations)))) in
  call r' <~ Math_random in
  let range := snd op in
  let value :=
    match fst op with
    | multiply => Qfloor (r' * inject_Z (snd range - fst range + 1)) + fst range
    | _ => Qfloor (r' * inject_Z (snd range - fst range + 1)) + fst range
    end in
  ret (makeOption (fst op) value).

Definition generateGateOptions : Rand (GateOption * GateOption) :=
  call left <~ getRandomOption in
  call right <~ getRandomOption in
  ret (left, right).

Definition calculateNewValue (currentValue : Z) (option : GateOption) : Z :=
  match op_type option with
  | multiply => currentValue * op_value option
  | add => currentValue + op_value option
  | subtract => Z.max 0 (currentValue - op_value option)
  end.

(** ** Gate generation ([useMemo] in [NumberRunner]) *)

Definition newGate (cfg : GameConfig) (i : Z)
    (options : GateOption * GateOption) : GateData :=
  {| gate_id := i;
     zPosition := inject_Z (i + 1) * gateSpacing cfg;
     leftOption := fst options;
     rightOption := snd options |}.

(** The [for] loop: [n] iterations are left, [i] is the loop variable. *)
Fixpoint gates_loop (cfg : GameConfig) (n : nat) (i : Z)
    (generatedGates : list GateData) : Rand (list GateData) :=
  match n with
  | O => ret generatedGates
  | S n' =>
      call options <~ generateGateOptions in
      gates_loop cfg n' (i + 1) (generatedGates ++ [newGate cfg i options])
  end.

Definition generatedGates (cfg : GameConfig) : Rand (list GateData) :=
  gates_loop cfg (Z.to_nat (totalGates cfg)) 0 [].

(** ** Game state

    The React state of [NumberRunner] ([playerValue], [targetLane],
    [playerZ], [gameOver], [finalScore], [scorePopups]), its two refs
    ([popupIdCounter], [processedGates]), the ref [currentZ] of [Player],
    and the callbacks handed to [setTimeout] that have not run yet; each
    of them is identified by the [newValue] it captured. *)

Record GameState := {
  playerValue : Z;
  targetLane : Z;
  playerZ : Q;
  gameOver : bool;
  finalScore : Z;
  scorePopups : list ScorePopup;
  popupIdCounter : Z;
  processedGates : gset Z;
  currentZ : Q;
  timeouts : list Z
}.

Definition initialState : GameState := {|
  playerValue := 10;
  targetLane := 0;
  playerZ := 0;
  gameOver := false;
  finalScore := 0;
  scorePopups := [];
  popupIdCounter := 0;
  processedGates := ∅;
  currentZ := 0;
  timeouts := []
|}.

Definition setTargetLane (lane : Z) (s : GameState) : GameState := {|
  playerValue := playerValue s;
  targetLane := lane;
  playerZ := playerZ s;
  gameOver := gameOver s;
  finalScore := finalScore s;
  scorePopups := scorePopups s;
  popupIdCounter := popupIdCounter s;
  processedGates := processedGates s;
  currentZ := currentZ s;
  timeouts := timeouts s
|}.

Definition setPlayerZ (z : Q) (s : GameState) : GameState := {|
  playerValue := playerValue s;
  targetLane := targetLane s;
  playerZ := z;
  gameOver := gameOver s;
  finalScore := finalScore s;
  scorePopups := scorePopups s;
  popupIdCounter := popupIdCounter s;
  processedGates := processedGates s;
  currentZ := currentZ s;
  timeouts := timeouts s
|}.

Definition setCurrentZ (z : Q) (s : GameState) : GameState := {|
  playerValue := playerValue s;
  targetLane := targetLane s;
  playerZ := playerZ s;
  gameOver := gameOver s;
  finalScore := finalScore s;
  scorePopups := scorePopups s;
  popupIdCounter := popupIdCounter s;
  processedGates := processedGates s;
  currentZ := z;
  timeouts := timeouts s
|}.

(** What one tick hands to its caller: a scoring event per resolved gate.
    [ev_gate] is [gate.id], [ev_delta] is [scoreDiff], [ev_lane] the lane
    the option was taken from and [ev_popup] the popup that was queued. *)
Record ScoringEvent := {
  ev_gate : Z;
  ev_delta : Z;
  ev_lane : Z;
  ev_option : GateOption;
  ev_popup : ScorePopup
}.

Record Tick := {
  tk_state : GameState;
  emittedEvents : list ScoringEvent;
  justFinished : bool
}.

Definition Qltb (a b : Q) : bool := if Qlt_le_dec a b then true else false.

Section Engine.

Variable cfg : GameConfig.
Variable window : Window.

(** The body of the [forEach] of [checkCollision].  [lane] and [value]
    are [targetLane] and [playerValue] as the closure captured them; the
    accumulator carries the refs and the queued state updates. *)
Definition collide (lane value : Z) (z : Q) (acc : Tick) (gate : GateData)
    : Tick :=
  let s := tk_state acc in
  let distance := Qabs (z - zPosition gate) in
  if Qltb distance (collisionThreshold cfg)
     && negb (bool_decide (gate_id gate ∈ processedGates s))
  then
    let selectedOption :=
      if lane =? 0 then leftOption gate else rightOption gate in
    let oldValue := value in
    let newValue := calculateNewValue value selectedOption in
    let scoreDiff := newValue - oldValue in
    let popupText :=
      if scoreDiff >? 0 then ("+" ++ pretty scoreDiff)%string
      else pretty scoreDiff in
    let screenX := if lane =? 0 then 80%Q else (innerWidth window - 120)%Q in
    let screenY := (innerHeight window * (3 # 10))%Q in
    let newPopup := {|
      popup_id := popupIdCounter s;
      popup_value := popupText;
      popup_color := op_color selectedOption;
      popup_x := screenX;
      popup_y := screenY |} in
    let isLast := gate_id gate =? totalGates cfg - 1 in
    {| tk_state := {|
         playerValue := newValue;
         targetLane := targetLane s;
         playerZ := playerZ s;
         gameOver := gameOver s;
         finalScore := finalScore s;
         scorePopups := scorePopups s ++ [newPopup];
         popupIdCounter := popupIdCounter s + 1;
         processedGates := {[gate_id gate]} ∪ processedGates s;
         currentZ := currentZ s;
         timeouts := if isLast then timeouts s ++ [newValue] else timeouts s
       |};
       emittedEvents := emittedEvents acc ++ [ {|
         ev_gate := gate_id gate;
         ev_delta := scoreDiff;
         ev_lane := lane;
         ev_option := selectedOption;
         ev_popup := newPopup |} ];
       justFinished := justFinished acc || isLast |}
  else acc.

Definition checkCollision (gates : list GateData) (s : GameState) (z : Q)
    : Tick :=
  fold_left (collide (targetLane s) (playerValue s) z) gates
    {| tk_state := s; emittedEvents := []; justFinished := false |}.

Definition handlePositionUpdate (gates : list GateData) (s : GameState)
    (z : Q) : Tick :=
  checkCollision gates (setPlayerZ z s) z.

(** The frame callback of [Player]: [delta] is the time since the last
    frame in seconds; the runner moves forward and reports its position.
    The easing of the x coordinate towards the lane and the rotation of
    the mesh are presentation and have no part in the game state. *)
Definition Player_useFrame (gates : list GateData) (s : GameState)
    (delta : Q) : Tick :=
  let s1 := setCurrentZ (currentZ s + playerSpeed cfg * (delta * 60))%Q s in
  handlePositionUpdate gates s1 (currentZ s1).

(** One tick of the engine, as its callers see it: the lane chosen by the
    last swipe is in force, the runner moves by [forwardDelta], and the
    new position is reported to the game.  Nothing in the code inspects
    the sign of [forwardDelta] or the value of [lane]. *)
Definition advance (gates : list GateData) (s : GameState)
    (forwardDelta : Q) (lane : Z) : Tick :=
  let s1 := setTargetLane lane s in
  let s2 := setCurrentZ (currentZ s1 + forwardDelta)%Q s1 in
  handlePositionUpdate gates s2 (currentZ s2).

(** A run: a sequence of ticks, each with its forward delta and lane.
    The result is the last state and the events of every tick in order. *)
Fixpoint run (gates : list GateData) (s : GameState) (ticks : list (Q * Z))
    : GameState * list ScoringEvent :=
  match ticks with
  | [] => (s, [])
  | (forwardDelta, lane) :: rest =>
      let t := advance gates s forwardDelta lane in
      let r := run gates (tk_state t) rest in
      (fst r, emittedEvents t ++ snd r)
  end.

End Engine.

(** The release handler of the pan responder: a swipe of more than 30
    units selects the right lane (1) or the left lane (0). *)
Definition onPanResponderRelease (dx : Q) (s : GameState) : GameState :=
  if Qltb 30 (Qabs dx) then
    if Qltb 0 dx then setTargetLane 1 s else setTargetLane 0 s
  else s.

(** The callback scheduled one second after the last gate. *)
Definition fireTimeout (s : GameState) : GameState :=
  match timeouts s with
  | [] => s
  | newValue :: rest => {|
      playerValue := playerValue s;
      targetLane := targetLane s;
      playerZ := playerZ s;
      gameOver := true;
      finalScore := newValue;
      scorePopups := scorePopups s;
      popupIdCounter := popupIdCounter s;
      processedGates := processedGates s;
      currentZ := currentZ s;
      timeouts := rest |}
  end.

(** ** Predicates and sample inputs used in the statements *)

(** The range and the colour class the code attaches to an operation. *)
Definition wellFormedOption (o : GateOption) : Prop :=
  match op_type o with
  | multiply => 2 <= op_value o <= 4 /\ op_color o = "#00ff88"%string
  | add => 10 <= op_value o <= 100 /\ op_color o = "#00ff88"%string
  | subtract => 5 <= op_value o <= 50 /\ op_color o = "#ff3366"%string
  end.

(** A random source that always yields one half. *)
Definition half : RandomSource := fun _ => (1 # 2)%Q.


(** [numbered cfg i gs]: the gates of [gs] carry the ids [i], [i+1], ...
    in order, each stands at [(id + 1) * gateSpacing], and both options of
    each are well formed. *)
Fixpoint numbered (cfg : GameConfig) (i : Z) (gs : list GateData) : Prop :=
  match gs with
  | [] => True
  | g :: rest =>
      gate_id g = i
      /\ zPosition g = (inject_Z (i + 1) * gateSpacing cfg)%Q
      /\ wellFormedOption (leftOption g)
      /\ wellFormedOption (rightOption g)
      /\ numbered cfg (i + 1) rest
  end.

(** The proximity test of [checkCollision]. *)
Definition inWindow (cfg : GameConfig) (z : Q) (g : GateData) : bool :=
  Qltb (Qabs (z - zPosition g)) (collisionThreshold cfg).

(** The option of [g] that lane [lane] selects. *)
Definition selectedOption (lane : Z) (g : GateData) : GateOption :=
  if lane =? 0 then leftOption g else rightOption g.

(** [e] reports the resolution of a gate of [gs] that was inside the
    window at [z] and unresolved in [s], scored from [value]. *)
Definition eventOf (cfg : GameConfig) (s : GameState) (lane value : Z)
    (z : Q) (gs : list GateData) (e : ScoringEvent) : Prop :=
  exists g,
    In g gs /\ ev_gate e = gate_id g
    /\ inWindow cfg z g = true
    /\ (gate_id g ∉ processedGates s)
    /\ ev_lane e = lane
    /\ ev_option e = selectedOption lane g
    /\ ev_delta e = calculateNewValue value (ev_option e) - value.

Definition isLastGate (cfg : GameConfig) (e : ScoringEvent) : bool :=
  ev_gate e =? totalGates cfg - 1.

(** The loop invariant of the [forEach] of [checkCollision]: [t] is the
    accumulator after the gates [gs], started from state [s] with the
    captured [lane] and [value] at position [z]. *)
Definition tickInv (cfg : GameConfig) (s : GameState) (lane value : Z)
    (z : Q) (gs : list GateData) (t : Tick) : Prop :=
  Forall (eventOf cfg s lane value z gs) (emittedEvents t)
  /\ processedGates (tk_state t)
     = list_to_set (map ev_gate (emittedEvents t)) ∪ processedGates s
  /\ NoDup (map ev_gate (emittedEvents t))
  /\ playerValue (tk_state t)
     = match last (emittedEvents t) with
       | Some e => calculateNewValue value (ev_option e)
       | None => playerValue s
       end
  /\ (targetLane (tk_state t) = targetLane s
      /\ playerZ (tk_state t) = playerZ s
      /\ currentZ (tk_state t) = currentZ s
      /\ gameOver (tk_state t) = gameOver s
      /\ finalScore (tk_state t) = finalScore s)
  /\ justFinished t = existsb (isLastGate cfg) (emittedEvents t)
  /\ timeouts (tk_state t)
     = timeouts s
       ++ map (fun e => calculateNewValue value (ev_option e))
            (filter (fun e => isLastGate cfg e = true) (emittedEvents t))
  /\ (forall g, In g gs -> inWindow cfg z g = true ->
        gate_id g ∈ processedGates (tk_state t))
  /\ (emittedEvents t = [] -> tk_state t = s).

(** The state [checkCollision] starts from in a tick: the lane is set and
    the runner stands at [z]. *)
Definition moved (lane : Z) (z : Q) (s : GameState) : GameState :=
  setPlayerZ z (setCurrentZ z (setTargetLane lane s)).

(** The gates the generator builds for [GAME_CONFIG] from [half]. *)
Definition halfGates : list GateData :=
  match generatedGates GAME_CONFIG half 0%nat with
  | Some (gs, _) => gs
  | None => []
  end.

(** Scenario A: one gate, multiply by 3 on the left, add 50 on the right. *)
Definition scenarioConfig : GameConfig := {|
  playerSpeed := 1 # 10;
  playerLaneSpeed := 15 # 100;
  lanePositions := [(-2)%Q; 2%Q];
  gateSpacing := 15;
  gateWidth := 3;
  gateHeight := 4;
  totalGates := 1;
  collisionThreshold := 2
|}.

Definition scenarioGates : list GateData :=
  [ newGate scenarioConfig 0 (makeOption multiply 3, makeOption add 50) ].

(** Two gates three units apart with a window of two units on each side:
    at position 9/2 the runner is inside both windows. *)
Definition denseConfig : GameConfig := {|
  playerSpeed := 1 # 10;
  playerLaneSpeed := 15 # 100;
  lanePositions := [(-2)%Q; 2%Q];
  gateSpacing := 3;
  gateWidth := 3;
  gateHeight := 4;
  totalGates := 2;
  collisionThreshold := 2
|}.

Definition denseGates : list GateData :=
  [ newGate denseConfig 0 (makeOption multiply 3, makeOption add 50);
    newGate denseConfig 1 (makeOption add 5, makeOption subtract 7) ].

Definition sampleWindow : Window := {| innerWidth := 400; innerHeight := 800 |}.

(** The runner has left the window of [g] behind. *)
Definition behind (cfg : GameConfig) (s : GameState) (g : GateData) : Prop :=
  (collisionThreshold cfg <= currentZ s - zPosition g)%Q.

(** Every gate is processed or behind the runner. *)
Definition settled (cfg : GameConfig) (gates : list GateData)
    (s : GameState) : Prop :=
  forall g, In g gates -> gate_id g ∈ processedGates s \/ behind cfg s g.


(** The first gate of [halfGates]: both draws of one half give "add 55". *)
Definition halfGate0 : GateData :=
  newGate GAME_CONFIG 0 (makeOption add 55, makeOption add 55).

(** ** The rest of the component

    The parts of [Player], [CameraController], [GateManager] and
    [NumberRunner] that the tick does not go through. *)

(** The inclusive operand range of a kind, as listed in [operations]. *)
Definition inRange (t : OperationType) (v : Z) : Prop :=
  match t with
  | multiply => 2 <= v <= 4
  | add => 10 <= v <= 100
  | subtract => 5 <= v <= 50
  end.

(** What [getRandomOption] attaches to the kind and the operand. *)
Definition decorated (o : GateOption) : Prop :=
  op_label o = (symbol (op_type o) ++ pretty (op_value o))%string
  /\ op_color o = (if isPositive (op_type o) then "#00ff88" else "#ff3366")%string.

(** [arr[i]] for an integer [i]; [None] is [undefined]. *)
Definition lookupZ {A} (arr : list A) (i : Z) : option A :=
  if i <? 0 then None else nth_error arr (Z.to_nat i).

(** The x part of the frame callback of [Player]: the sphere eases
    towards the position of the target lane.  [None] is the [NaN] that a
    lane without a position produces. *)
Definition Player_laneX (cfg : GameConfig) (targetLane : Z) (currentX : Q)
    : option Q :=
  match lookupZ (lanePositions cfg) targetLane with
  | Some targetX =>
      Some (currentX + (targetX - currentX) * playerLaneSpeed cfg)%Q
  | None => None
  end.

(** The camera: its position and the point it looks at ([None] before
    the first frame). *)
Record Camera := {
  cam_x : Q;
  cam_y : Q;
  cam_z : Q;
  cam_lookAt : option (Q * Q * Q)
}.

(** The camera the [Canvas] is created with. *)
Definition initialCamera : Camera :=
  {| cam_x := 0; cam_y := 5; cam_z := -8; cam_lookAt := None |}.

(** The frame callback of [CameraController]. *)
Definition CameraController_useFrame (playerZ : Q) (camera : Camera) : Camera :=
  let targetZ := (playerZ - 8)%Q in
  let targetY := 5%Q in
  let targetX := 0%Q in
  {| cam_x := cam_x camera + (targetX - cam_x camera) * (1 # 10);
     cam_y := cam_y camera + (targetY - cam_y camera) * (1 # 10);
     cam_z := cam_z camera + (targetZ - cam_z camera) * (1 # 10);
     cam_lookAt := Some (0%Q, 1%Q, (playerZ + 5)%Q) |}.

(** The camera after the frames that saw the player positions [zs]. *)
Definition cameraFrames (camera : Camera) (zs : list Q) : Camera :=
  fold_left (fun c z => CameraController_useFrame z c) zs camera.

(** The positions [zs] never go back, starting from [z0]. *)
Fixpoint ascending (z0 : Q) (zs : list Q) : Prop :=
  match zs with
  | [] => True
  | z :: rest => (z0 <= z)%Q /\ ascending z rest
  end.

(** [GateManager]: one entry per gate, [None] for a gate that is culled
    and [Some gate] for the group of its two panels. *)
Definition GateManager (gates : list GateData) (playerZ : Q)
    : list (option GateData) :=
  map (fun gate =>
         let distanceToPlayer := (zPosition gate - playerZ)%Q in
         if Qltb distanceToPlayer (-10) || Qltb 50 distanceToPlayer
         then None else Some gate)
      gates.

(** The gate shown in the preview. *)
Definition nextGate (cfg : GameConfig) (gates : list GateData) (playerZ : Q)
    : option GateData :=
  List.find (fun gate =>
               Qltb 0 (zPosition gate - playerZ)
               && Qltb (zPosition gate - playerZ) (gateSpacing cfg + 5))
            gates.

(** [removePopup]: the popup whose animation has completed is dropped. *)
Definition removePopup (id : Z) (s : GameState) : GameState := {|
  playerValue := playerValue s;
  targetLane := targetLane s;
  playerZ := playerZ s;
  gameOver := gameOver s;
  finalScore := finalScore s;
  scorePopups := List.filter (fun p => negb (popup_id p =? id)) (scorePopups s);
  popupIdCounter := popupIdCounter s;
  processedGates := processedGates s;
  currentZ := currentZ s;
  timeouts := timeouts s
|}.

(** The progress indicator: the number shown in "Gate n / total" and the
    width of the bar in percent. *)
Definition progressNumber (s : GameState) : Z :=
  Z.of_nat (size (processedGates s)) + 1.

Definition progressFill (cfg : GameConfig) (s : GameState) : Q :=
  (inject_Z (Z.of_nat (size (processedGates s))) / inject_Z (totalGates cfg)
   * 100)%Q.

(** What happens to a mounted game: a frame, the release of a swipe, the
    game-over callback, the end of a popup's animation. *)
Inductive Action :=
| Frame (delta : Q)
| Release (dx : Q)
| TimeoutFires
| PopupDone (id : Z).

(** Once [gameOver] is set [NumberRunner] renders the end screen alone:
    the canvas with [Player] and the touch overlay are no longer mounted,
    so frames and swipes reach the game only while it is not over. *)
Definition dispatch (cfg : GameConfig) (window : Window)
    (gates : list GateData) (s : GameState) (a : Action) : GameState :=
  match a with
  | Frame delta =>
      if gameOver s then s
      else tk_state (Player_useFrame cfg window gates s delta)
  | Release dx => if gameOver s then s else onPanResponderRelease dx s
  | TimeoutFires => fireTimeout s
  | PopupDone id => removePopup id s
  end.

Definition play (cfg : GameConfig) (window : Window) (gates : list GateData)
    (s : GameState) (actions : list Action) : GameState :=
  fold_left (dispatch cfg window gates) actions s.

(** Frames carry the time elapsed since the previous one. *)
Definition clockAction (a : Action) : Prop :=
  match a with
  | Frame delta => (0 <= delta)%Q
  | _ => True
  end.

(** The text of a popup for a score difference. *)
Definition popupText (scoreDiff : Z) : string :=
  if scoreDiff >? 0 then ("+" ++ pretty scoreDiff)%string else pretty scoreDiff.

(** The popups a tick has queued so far, relative to its start state [s]:
    one per event, numbered from the popup counter, coloured like the
    option and showing the signed difference; and the events follow the
    order of the gates. *)
Definition popupInv (s : GameState) (gs : list GateData) (t : Tick) : Prop :=
  scorePopups (tk_state t) = scorePopups s ++ map ev_popup (emittedEvents t)
  /\ popupIdCounter (tk_state t)
     = popupIdCounter s + Z.of_nat (length (emittedEvents t))
  /\ map (fun e => popup_id (ev_popup e)) (emittedEvents t)
     = seqZ (popupIdCounter s) (Z.of_nat (length (emittedEvents t)))
  /\ Forall (fun e =>
               popup_color (ev_popup e) = op_color (ev_option e)
               /\ popup_value (ev_popup e) = popupText (ev_delta e))
       (emittedEvents t)
  /\ sublist (map ev_gate (emittedEvents t)) (map gate_id gs).

(** What holds of every state of a game started from [initialState]. *)
Definition gameInv (cfg : GameConfig) (gates : list GateData)
    (s : GameState) : Prop :=
  (targetLane s = 0 \/ targetLane s = 1)
  /\ NoDup (map popup_id (scorePopups s))
  /\ (forall p, In p (scorePopups s) -> 0 <= popup_id p < popupIdCounter s)
  /\ popupIdCounter s = Z.of_nat (size (processedGates s))
  /\ processedGates s ⊆ list_to_set (map gate_id gates)
  /\ playerZ s = currentZ s
  /\ (length (timeouts s) + (if gameOver s then 1 else 0)
      = if bool_decide ((totalGates cfg - 1)%Z ∈ processedGates s)
        then 1 else 0)%nat.

(** What a game played forward keeps once the last gate is processed:
    every gate is processed or behind the runner, the pending callback
    carries the current score, and the final score is the current score. *)
Definition finalInv (cfg : GameConfig) (gates : list GateData)
    (s : GameState) : Prop :=
  (totalGates cfg - 1 ∈ processedGates s -> settled cfg gates s)
  /\ (forall v, In v (timeouts s) -> v = playerValue s)
  /\ (gameOver s = true -> finalScore s = playerValue s).

(** * Properties *)

(** ** Scoring *)

Lemma calculateNewValue_nonneg (s : Z) (o : GateOption) :
  0 <= s -> 0 <= op_value o -> 0 <= calculateNewValue s o.
Proof.
  unfold calculateNewValue; intros Hs Hv.
  destruct (op_type o); lia.
Qed.

(** ** Gate options *)

Lemma Qfloor_scaled_bounds (r : Q) (n : Z) :
  (0 <= r)%Q -> (r < 1)%Q -> 0 < n -> 0 <= Qfloor (r * inject_Z n) < n.
Proof.
  intros H0 H1 Hn.
  assert (Hq : (0 < inject_Z n)%Q) by (rewrite (Zlt_Qlt 0 n) in Hn; exact Hn).
  split.
  - change 0 with (Qfloor (inject_Z 0)) at 1.
    apply Qfloor_resp_le. change (inject_Z 0) with 0%Q. nra.
  - rewrite Zlt_Qlt.
    apply Qle_lt_trans with (r * inject_Z n)%Q; [apply Qfloor_le | nra].
Qed.

Lemma getRandomOption_spec (src : RandomSource) (k : nat) :
  unit_interval src ->
  exists o, getRandomOption src k = Some (o, S (S k)) /\ wellFormedOption o.
Proof.
  intros Hsrc.
  destruct (Hsrc k) as [Ha Hb], (Hsrc (S k)) as [Hc Hd].
  unfold getRandomOption, bind, Math_random, at_index.
  pose proof (Qfloor_scaled_bounds (src k) 3 Ha Hb ltac:(lia)) as Hi.
  change (Z.of_nat (length operations)) with 3.
  destruct (Z.ltb_spec (Qfloor (src k * inject_Z 3)) 0) as [Hneg | _]; [lia |].
  assert (Hcase : Qfloor (src k * inject_Z 3) = 0
                  \/ Qfloor (src k * inject_Z 3) = 1
                  \/ Qfloor (src k * inject_Z 3) = 2) by lia.
  destruct Hcase as [-> | [-> | ->]]; cbn -[Qfloor Qmult inject_Z];
    eexists; (split; [reflexivity |]); unfold wellFormedOption; cbn -[Qfloor Qmult inject_Z].
  - pose proof (Qfloor_scaled_bounds (src (S k)) (4 - 2 + 1) Hc Hd ltac:(lia)).
    split; [lia | reflexivity].
  - pose proof (Qfloor_scaled_bounds (src (S k)) (100 - 10 + 1) Hc Hd ltac:(lia)).
    split; [lia | reflexivity].
  - pose proof (Qfloor_scaled_bounds (src (S k)) (50 - 5 + 1) Hc Hd ltac:(lia)).
    split; [lia | reflexivity].
Qed.

(** C8: whatever the random source yields (numbers of [0, 1)),
    [getRandomOption] returns an option whose operand lies in the
    inclusive range of its kind (multiply 2..4, add 10..100, subtract
    5..50) and whose colour is determined by the kind: the positive colour
    for multiply and add, the negative one for subtract. *)
Theorem getRandomOption_in_range (src : RandomSource) (k : nat) :
  unit_interval src ->
  exists o k',
    getRandomOption src k = Some (o, k')
    /\ match op_type o with
       | multiply => 2 <= op_value o <= 4
       | add => 10 <= op_value o <= 100
       | subtract => 5 <= op_value o <= 50
       end
    /\ op_color o = (if isPositive (op_type o) then "#00ff88" else "#ff3366")%string.
Proof.
  intros Hsrc.
  destruct (getRandomOption_spec src k Hsrc) as (o & Heq & Hwf).
  exists o, (S (S k)). split; [exact Heq |].
  unfold wellFormedOption in Hwf.
  destruct (op_type o); cbn; tauto.
Qed.

Lemma half_unit_interval : unit_interval half.
Proof. intros k; unfold half, Qle, Qlt; simpl; lia. Defined.

Lemma getRandomOption_in_range_witness :
  exists o k',
    getRandomOption half 0%nat = Some (o, k')
    /\ match op_type o with
       | multiply => 2 <= op_value o <= 4
       | add => 10 <= op_value o <= 100
       | subtract => 5 <= op_value o <= 50
       end
    /\ op_color o = (if isPositive (op_type o) then "#00ff88" else "#ff3366")%string.
Proof. exact (getRandomOption_in_range half 0%nat half_unit_interval). Defined.

(** ** Gate generation *)

Lemma generateGateOptions_spec (src : RandomSource) (k : nat) :
  unit_interval src ->
  exists l r,
    generateGateOptions src k = Some ((l, r), (4 + k)%nat)
    /\ wellFormedOption l /\ wellFormedOption r.
Proof.
  intros Hsrc.
  destruct (getRandomOption_spec src k Hsrc) as (l & Hl & Hwl).
  destruct (getRandomOption_spec src (S (S k)) Hsrc) as (r & Hr & Hwr).
  exists l, r. unfold generateGateOptions, bind.
  rewrite Hl, Hr. auto.
Qed.

Lemma gates_loop_spec (cfg : GameConfig) (src : RandomSource) :
  unit_interval src ->
  forall (n : nat) (i : Z) (acc : list GateData) (k : nat),
  exists gs,
    gates_loop cfg n i acc src k = Some (acc ++ gs, (4 * n + k)%nat)
    /\ length gs = n /\ numbered cfg i gs.
Proof.
  intros Hsrc; induction n as [| n IH]; intros i acc k.
  - exists []. cbn. rewrite app_nil_r. auto.
  - destruct (generateGateOptions_spec src k Hsrc) as (l & r & Hopt & Hl & Hr).
    destruct (IH (i + 1) (acc ++ [newGate cfg i (l, r)]) (4 + k)%nat)
      as (gs & Hrun & Hlen & Hnum).
    exists (newGate cfg i (l, r) :: gs).
    cbn [gates_loop]. unfold bind at 1. rewrite Hopt, Hrun.
    rewrite <- app_assoc. cbn [app length numbered newGate gate_id zPosition
      leftOption rightOption fst snd].
    repeat split; try assumption; try reflexivity.
    + do 2 f_equal. lia.
    + now rewrite Hlen.
Qed.

Lemma numbered_nth (cfg : GameConfig) (gs : list GateData) :
  forall (i : Z) (j : nat) (g : GateData),
  numbered cfg i gs -> nth_error gs j = Some g ->
  gate_id g = i + Z.of_nat j
  /\ zPosition g = (inject_Z (gate_id g + 1) * gateSpacing cfg)%Q
  /\ wellFormedOption (leftOption g) /\ wellFormedOption (rightOption g).
Proof.
  induction gs as [| h gs IH]; intros i j g Hn Hj.
  - destruct j; discriminate.
  - destruct Hn as (Hid & Hpos & Hl & Hr & Hn). destruct j as [| j]; cbn in Hj.
    + injection Hj as <-. rewrite Hid. repeat split; try assumption. lia.
    + destruct (IH (i + 1) j g Hn Hj) as (-> & ? & ? & ?).
      repeat split; try assumption. lia.
Qed.

Lemma numbered_ids (cfg : GameConfig) (gs : list GateData) :
  forall i : Z,
  numbered cfg i gs -> map gate_id gs = seqZ i (Z.of_nat (length gs)).
Proof.
  induction gs as [| h gs IH]; intros i Hn.
  - reflexivity.
  - destruct Hn as (Hid & _ & _ & _ & Hn).
    rewrite seqZ_cons by (cbn; lia). cbn [map]. rewrite Hid. f_equal.
    rewrite (IH _ Hn). f_equal; cbn; lia.
Qed.

Lemma generatedGates_numbered (cfg : GameConfig) (src : RandomSource) (k : nat) :
  unit_interval src ->
  exists gs,
    generatedGates cfg src k
      = Some (gs, (4 * Z.to_nat (totalGates cfg) + k)%nat)
    /\ length gs = Z.to_nat (totalGates cfg) /\ numbered cfg 0 gs.
Proof.
  intros Hsrc. unfold generatedGates.
  destruct (gates_loop_spec cfg src Hsrc (Z.to_nat (totalGates cfg)) 0 [] k)
    as (gs & Hrun & Hlen & Hnum).
  exists gs. auto.
Qed.

(** C7: the generated gate sequence has [totalGates] gates, their ids are
    the ordinals 0, 1, ..., totalGates-1 in that order, and gate [i]
    stands at [(i + 1) * gateSpacing].  The generator returns such a
    sequence for every random source of numbers in [0, 1). *)
Theorem generatedGates_positions (cfg : GameConfig) (src : RandomSource)
    (k : nat) :
  unit_interval src ->
  exists gs k',
    generatedGates cfg src k = Some (gs, k')
    /\ length gs = Z.to_nat (totalGates cfg)
    /\ map gate_id gs = seqZ 0 (totalGates cfg)
    /\ forall (i : nat) (g : GateData),
         nth_error gs i = Some g ->
         gate_id g = Z.of_nat i
         /\ zPosition g = (inject_Z (Z.of_nat i + 1) * gateSpacing cfg)%Q.
Proof.
  intros Hsrc.
  destruct (generatedGates_numbered cfg src k Hsrc) as (gs & Hrun & Hlen & Hnum).
  exists gs, (4 * Z.to_nat (totalGates cfg) + k)%nat.
  split; [exact Hrun |]. split; [exact Hlen |]. split.
  - rewrite (numbered_ids cfg gs 0 Hnum), Hlen.
    unfold seqZ. now rewrite Nat2Z.id.
  - intros i g Hi.
    destruct (numbered_nth cfg gs 0 i g Hnum Hi) as (Hid & Hpos & _).
    rewrite Hpos, Hid. split; [lia | reflexivity].
Qed.

Lemma generatedGates_positions_witness :
  exists gs k',
    generatedGates GAME_CONFIG half 0%nat = Some (gs, k')
    /\ length gs = Z.to_nat (totalGates GAME_CONFIG)
    /\ map gate_id gs = seqZ 0 (totalGates GAME_CONFIG)
    /\ forall (i : nat) (g : GateData),
         nth_error gs i = Some g ->
         gate_id g = Z.of_nat i
         /\ zPosition g
            = (inject_Z (Z.of_nat i + 1) * gateSpacing GAME_CONFIG)%Q.
Proof.
  exact (generatedGates_positions GAME_CONFIG half 0%nat half_unit_interval).
Defined.

(** ** The collision loop *)

Section Collision.

Variable cfg : GameConfig.
Variable window : Window.

Lemma eventOf_weaken s lane value z gs hs e :
  eventOf cfg s lane value z gs e -> eventOf cfg s lane value z (gs ++ hs) e.
Proof.
  intros (g & Hin & H). exists g. split; [| exact H].
  apply in_or_app; now left.
Qed.

Lemma tickInv_init s lane value z :
  tickInv cfg s lane value z []
    {| tk_state := s; emittedEvents := []; justFinished := false |}.
Proof.
  unfold tickInv; cbn. repeat split; auto.
  - set_solver.
  - constructor.
  - now rewrite app_nil_r.
  - intros g Hin. destruct Hin.
Qed.

Lemma tickInv_step s lane value z gs t g :
  tickInv cfg s lane value z gs t ->
  tickInv cfg s lane value z (gs ++ [g]) (collide cfg window lane value z t g).
Proof.
  intros (Hev & Hproc & Hnd & Hval & Hframe & Hfin & Htime & Hwin & Hnil).
  unfold collide.
  fold (inWindow cfg z g).
  destruct (inWindow cfg z g) eqn:Hw; cbn [andb].
  2:{ (* outside the window *)
      unfold tickInv. repeat split; try tauto.
      - eapply Forall_impl; [exact Hev |]. intros e; apply eventOf_weaken.
      - intros g' Hin Hw'. apply in_app_or in Hin as [Hin | [<- | []]]; auto.
        congruence. }
  destruct (bool_decide (gate_id g ∈ processedGates (tk_state t))) eqn:Hp;
    cbn [negb].
  { (* already processed *)
    apply bool_decide_eq_true in Hp.
    unfold tickInv. repeat split; try tauto.
    - eapply Forall_impl; [exact Hev |]. intros e; apply eventOf_weaken.
    - intros g' Hin Hw'. apply in_app_or in Hin as [Hin | [<- | []]]; auto. }
  (* the gate resolves *)
  apply bool_decide_eq_false in Hp.
  assert (Hfresh : gate_id g ∉ processedGates s) by (rewrite Hproc in Hp; set_solver).
  assert (Hnew : gate_id g ∉ map ev_gate (emittedEvents t)).
  { rewrite Hproc in Hp. intros Hin. apply Hp. set_solver. }
  fold (selectedOption lane g).
  unfold tickInv;
    cbn [tk_state emittedEvents justFinished playerValue targetLane playerZ
         gameOver finalScore scorePopups popupIdCounter processedGates
         currentZ timeouts].
  split; [| split; [| split; [| split; [| split; [| split; [| split; [| split]]]]]]].
  - apply Forall_app. split.
    + eapply Forall_impl; [exact Hev |]. intros e; apply eventOf_weaken.
    + constructor; [| constructor]. exists g. cbn.
      repeat split; auto. apply in_or_app; right; now left.
  - rewrite Hproc, map_app, list_to_set_app_L. cbn. set_solver.
  - rewrite map_app. apply NoDup_app. repeat split; auto.
    + intros x Hx Hx'. cbn in Hx'. apply list_elem_of_singleton in Hx'. now subst.
    + cbn. apply NoDup_singleton.
  - now rewrite last_snoc.
  - exact Hframe.
  - rewrite existsb_app, Hfin. cbn. unfold isLastGate at 2. cbn.
    now rewrite orb_false_r.
  - rewrite filter_app, map_app, app_assoc, <- Htime.
    rewrite filter_cons, filter_nil. unfold isLastGate at 1 3. cbn [ev_gate].
    case_decide as Hl.
    + now rewrite Hl.
    + apply not_true_is_false in Hl. rewrite Hl. cbn. now rewrite app_nil_r.
  - intros g' Hin Hw'. apply in_app_or in Hin as [Hin | [<- | []]].
    + specialize (Hwin g' Hin Hw'). set_solver.
    + set_solver.
  - intros Habs. destruct (emittedEvents t); discriminate Habs.
Qed.

Lemma tickInv_fold s lane value z gs :
  tickInv cfg s lane value z gs
    (fold_left (collide cfg window lane value z) gs
       {| tk_state := s; emittedEvents := []; justFinished := false |}).
Proof.
  induction gs as [| g gs IH] using rev_ind.
  - apply tickInv_init.
  - rewrite fold_left_app. cbn [fold_left]. now apply tickInv_step.
Qed.

Lemma checkCollision_inv gates s z :
  tickInv cfg s (targetLane s) (playerValue s) z gates
    (checkCollision cfg window gates s z).
Proof. apply tickInv_fold. Qed.

End Collision.

(** ** One tick *)

(** Reduce the fields of a [moved] state in a hypothesis. *)
Ltac moved_simpl H :=
  unfold moved, setPlayerZ, setCurrentZ, setTargetLane in H;
  cbn [playerValue targetLane playerZ gameOver finalScore scorePopups
       popupIdCounter processedGates currentZ timeouts] in H.

Section Ticks.

Variable cfg : GameConfig.
Variable window : Window.
Variable gates : list GateData.

Lemma inWindow_true_iff z g :
  inWindow cfg z g = true
  <-> (- collisionThreshold cfg < z - zPosition g < collisionThreshold cfg)%Q.
Proof.
  unfold inWindow, Qltb. rewrite <- Qabs_Qlt_condition.
  destruct (Qlt_le_dec _ _) as [Hlt | Hle]; split; intros H; auto.
  - discriminate.
  - exfalso. apply (Qlt_irrefl (collisionThreshold cfg)).
    eapply Qle_lt_trans; eassumption.
Qed.

Lemma inWindow_false_iff z g :
  inWindow cfg z g = false
  <-> (z - zPosition g <= - collisionThreshold cfg
       \/ collisionThreshold cfg <= z - zPosition g)%Q.
Proof.
  rewrite <- not_true_iff_false, inWindow_true_iff. split.
  - intros H.
    destruct (Qlt_le_dec (- collisionThreshold cfg) (z - zPosition g));
      [| now left].
    destruct (Qlt_le_dec (z - zPosition g) (collisionThreshold cfg));
      [| now right].
    exfalso; apply H; now split.
  - intros [H | H] [H1 H2]; lra.
Qed.

Lemma advance_unfold s forwardDelta lane :
  advance cfg window gates s forwardDelta lane
  = checkCollision cfg window gates
      (moved lane (currentZ s + forwardDelta)%Q s) (currentZ s + forwardDelta)%Q.
Proof. reflexivity. Qed.

Lemma advance_inv s forwardDelta lane :
  tickInv cfg (moved lane (currentZ s + forwardDelta)%Q s) lane (playerValue s)
    (currentZ s + forwardDelta)%Q gates
    (advance cfg window gates s forwardDelta lane).
Proof.
  rewrite advance_unfold.
  exact (checkCollision_inv cfg window gates
           (moved lane (currentZ s + forwardDelta)%Q s)
           (currentZ s + forwardDelta)%Q).
Qed.

Lemma advance_events s forwardDelta lane :
  Forall (eventOf cfg s lane (playerValue s) (currentZ s + forwardDelta)%Q gates)
    (emittedEvents (advance cfg window gates s forwardDelta lane)).
Proof.
  eapply Forall_impl; [exact (proj1 (advance_inv s forwardDelta lane)) |].
  intros e (g & H). moved_simpl H. exists g. exact H.
Qed.

Lemma advance_processed s forwardDelta lane :
  processedGates (tk_state (advance cfg window gates s forwardDelta lane))
  = list_to_set
      (map ev_gate (emittedEvents (advance cfg window gates s forwardDelta lane)))
    ∪ processedGates s.
Proof.
  pose proof (proj1 (proj2 (advance_inv s forwardDelta lane))) as H.
  moved_simpl H. exact H.
Qed.

Lemma advance_NoDup s forwardDelta lane :
  NoDup (map ev_gate (emittedEvents (advance cfg window gates s forwardDelta lane))).
Proof. exact (proj1 (proj2 (proj2 (advance_inv s forwardDelta lane)))). Qed.

Lemma advance_playerValue s forwardDelta lane :
  playerValue (tk_state (advance cfg window gates s forwardDelta lane))
  = match last (emittedEvents (advance cfg window gates s forwardDelta lane)) with
    | Some e => calculateNewValue (playerValue s) (ev_option e)
    | None => playerValue s
    end.
Proof.
  pose proof (proj1 (proj2 (proj2 (proj2 (advance_inv s forwardDelta lane)))))
    as H.
  moved_simpl H. exact H.
Qed.

Lemma advance_currentZ s forwardDelta lane :
  currentZ (tk_state (advance cfg window gates s forwardDelta lane))
  = (currentZ s + forwardDelta)%Q.
Proof.
  destruct (advance_inv s forwardDelta lane)
    as (_ & _ & _ & _ & (_ & _ & H & _) & _).
  moved_simpl H. exact H.
Qed.


Lemma advance_timeouts s forwardDelta lane :
  timeouts (tk_state (advance cfg window gates s forwardDelta lane))
  = timeouts s
    ++ map (fun e => calculateNewValue (playerValue s) (ev_option e))
         (filter (fun e => isLastGate cfg e = true)
            (emittedEvents (advance cfg window gates s forwardDelta lane))).
Proof.
  destruct (advance_inv s forwardDelta lane)
    as (_ & _ & _ & _ & _ & _ & H & _).
  moved_simpl H. exact H.
Qed.

Lemma advance_window s forwardDelta lane g :
  In g gates -> inWindow cfg (currentZ s + forwardDelta)%Q g = true ->
  gate_id g
    ∈ processedGates (tk_state (advance cfg window gates s forwardDelta lane)).
Proof.
  destruct (advance_inv s forwardDelta lane)
    as (_ & _ & _ & _ & _ & _ & _ & H & _).
  apply H.
Qed.

Lemma advance_quiet s forwardDelta lane :
  emittedEvents (advance cfg window gates s forwardDelta lane) = [] ->
  tk_state (advance cfg window gates s forwardDelta lane)
  = moved lane (currentZ s + forwardDelta)%Q s.
Proof.
  destruct (advance_inv s forwardDelta lane)
    as (_ & _ & _ & _ & _ & _ & _ & _ & H).
  exact H.
Qed.

(** No gate resolves when every gate inside the window is processed. *)
Lemma advance_no_hit s forwardDelta lane :
  (forall g, In g gates ->
     inWindow cfg (currentZ s + forwardDelta)%Q g = true ->
     gate_id g ∈ processedGates s) ->
  emittedEvents (advance cfg window gates s forwardDelta lane) = [].
Proof.
  intros Hdone. pose proof (advance_events s forwardDelta lane) as Hev.
  destruct (emittedEvents _) as [| e evs]; [reflexivity |].
  apply Forall_cons in Hev as [(g & Hin & _ & Hw & Hfresh & _) _].
  now specialize (Hdone g Hin Hw).
Qed.

Lemma advance_event_fresh s forwardDelta lane e :
  In e (emittedEvents (advance cfg window gates s forwardDelta lane)) ->
  ev_gate e ∉ processedGates s.
Proof.
  intros Hin. pose proof (advance_events s forwardDelta lane) as Hev.
  rewrite Forall_forall in Hev.
  apply list_elem_of_In in Hin.
  destruct (Hev e Hin) as (g & _ & -> & _ & Hfresh & _). exact Hfresh.
Qed.

(** ** Runs *)

Lemma run_processed ticks : forall s,
  processedGates (fst (run cfg window gates s ticks))
  = list_to_set (map ev_gate (snd (run cfg window gates s ticks)))
    ∪ processedGates s.
Proof.
  induction ticks as [| [fd lane] ticks IH]; intros s; cbn [run fst snd].
  - cbn. set_solver.
  - rewrite IH, advance_processed, map_app, list_to_set_app_L. set_solver.
Qed.

Lemma run_event_fresh ticks : forall s e,
  In e (snd (run cfg window gates s ticks)) -> ev_gate e ∉ processedGates s.
Proof.
  induction ticks as [| [fd lane] ticks IH]; intros s e Hin; cbn [run fst snd] in Hin.
  - destruct Hin.
  - apply in_app_or in Hin as [Hin | Hin].
    + eapply advance_event_fresh; eassumption.
    + apply IH in Hin. rewrite advance_processed in Hin. set_solver.
Qed.

Lemma run_NoDup ticks : forall s,
  NoDup (map ev_gate (snd (run cfg window gates s ticks))).
Proof.
  induction ticks as [| [fd lane] ticks IH]; intros s; cbn [run fst snd].
  - constructor.
  - rewrite map_app. apply NoDup_app. split; [apply advance_NoDup |].
    split; [| apply IH].
    intros x Hx Hx'.
    apply list_elem_of_In, in_map_iff in Hx' as (e & <- & He).
    apply run_event_fresh in He. apply He.
    rewrite advance_processed. set_solver.
Qed.

End Ticks.

(** The frame callback is the tick whose forward delta is
    [playerSpeed * (delta * 60)] and whose lane is the current one. *)
Lemma Player_useFrame_advance (cfg : GameConfig) (window : Window)
    (gates : list GateData) (s : GameState) (delta : Q) :
  Player_useFrame cfg window gates s delta
  = advance cfg window gates s (playerSpeed cfg * (delta * 60))%Q (targetLane s).
Proof. destruct s; reflexivity. Qed.


(** ** Scoring a resolved gate *)

(** C1: the operation a gate option applies to a score [s] is
    [s * operand] for multiply, [s + operand] for add and
    [max 0 (s - operand)] for subtract, and the result of a subtract is
    never negative.  This is the value gate resolution uses: the score a
    tick computes for each gate it resolves is [calculateNewValue] of the
    score at the start of the tick and the selected option. *)
Theorem resolution_applies_operation (cfg : GameConfig) (window : Window)
    (gates : list GateData) (st : GameState) (forwardDelta : Q) (lane : Z)
    (s : Z) (o : GateOption) :
  let t := advance cfg window gates st forwardDelta lane in
  match op_type o with
  | multiply => calculateNewValue s o = s * op_value o
  | add => calculateNewValue s o = s + op_value o
  | subtract =>
      calculateNewValue s o = Z.max 0 (s - op_value o)
      /\ 0 <= calculateNewValue s o
  end
  /\ (forall e, In e (emittedEvents t) ->
        playerValue st + ev_delta e
        = calculateNewValue (playerValue st) (ev_option e)).
Proof.
  intros t. split.
  - unfold calculateNewValue.
    destruct (op_type o); try split; try reflexivity; lia.
  - intros e Hin.
    pose proof (advance_events cfg window gates st forwardDelta lane) as Hev.
    rewrite Forall_forall in Hev. apply list_elem_of_In in Hin.
    destruct (Hev e Hin) as (g & _ & _ & _ & _ & _ & _ & ->). lia.
Qed.

(** ** Resolution happens once *)

(** C3: a gate resolves at most once.  Over any sequence of ticks from
    any state, no two events carry the same gate id and no event is for a
    gate that was already in [processedGates]; processed gates stay
    processed; a tick that emits nothing leaves the score alone; and a
    second tick at the position of the first (forward delta 0) emits no
    event and changes neither the score nor [processedGates]. *)
Theorem gate_resolves_at_most_once (cfg : GameConfig) (window : Window)
    (gates : list GateData) (s : GameState) (ticks : list (Q * Z))
    (forwardDelta : Q) (lane lane' : Z) :
  let r := run cfg window gates s ticks in
  let t1 := advance cfg window gates s forwardDelta lane in
  let t2 := advance cfg window gates (tk_state t1) 0 lane' in
  NoDup (map ev_gate (snd r))
  /\ (forall e, In e (snd r) -> ev_gate e ∉ processedGates s)
  /\ processedGates s ⊆ processedGates (fst r)
  /\ (forall e, In e (emittedEvents t1) -> ev_gate e ∉ processedGates s)
  /\ (emittedEvents t1 = [] -> playerValue (tk_state t1) = playerValue s)
  /\ emittedEvents t2 = []
  /\ playerValue (tk_state t2) = playerValue (tk_state t1)
  /\ processedGates (tk_state t2) = processedGates (tk_state t1).
Proof.
  intros r t1 t2.
  assert (Hquiet : emittedEvents t2 = []).
  { apply advance_no_hit. intros g Hin Hw.
    unfold t1 in Hw |- *. rewrite advance_currentZ in Hw.
    apply advance_window; [exact Hin |].
    apply inWindow_true_iff. apply inWindow_true_iff in Hw. lra. }
  split; [apply run_NoDup |].
  split; [apply run_event_fresh |].
  split; [unfold r; rewrite run_processed; set_solver |].
  split; [intros e; apply advance_event_fresh |].
  split.
  { intros Hnil. unfold t1 in *. now rewrite advance_playerValue, Hnil. }
  split; [exact Hquiet |].
  unfold t2 in *. rewrite advance_playerValue, advance_processed, Hquiet.
  split; [reflexivity | cbn; set_solver].
Qed.

(** ** Several gates in one tick *)

(** Two neighbouring gates are both inside the window half-way between
    them as soon as the threshold exceeds half the spacing. *)
Lemma adjacent_windows_overlap (cfg : GameConfig) (i : Z)
    (o o' : GateOption * GateOption) :
  (0 <= gateSpacing cfg)%Q ->
  (gateSpacing cfg < 2 * collisionThreshold cfg)%Q ->
  let z := (inject_Z (i + 1) * gateSpacing cfg + gateSpacing cfg * (1 # 2))%Q in
  inWindow cfg z (newGate cfg i o) = true
  /\ inWindow cfg z (newGate cfg (i + 1) o') = true.
Proof.
  intros Hsp Hth z. rewrite !inWindow_true_iff. unfold z, newGate; cbn.
  rewrite (inject_Z_plus (i + 1) 1).
  set (a := inject_Z (i + 1)). change (inject_Z 1) with 1%Q.
  assert (Ha : ((a + 1) * gateSpacing cfg == a * gateSpacing cfg + gateSpacing cfg)%Q)
    by ring.
  rewrite Ha. set (p := (a * gateSpacing cfg)%Q). lra.
Qed.


(** C10: within one tick every resolution is computed from the score at
    the start of the tick.  Each gate inside the window and not yet
    processed emits an event, the delta of every event is the gate's
    operation applied to the tick-start score minus that score, and the
    score after the tick is the operation of the last event applied to the
    tick-start score; earlier resolutions of the tick do not enter it. *)
Theorem same_tick_resolutions_do_not_compound (cfg : GameConfig)
    (window : Window) (gates : list GateData) (s : GameState)
    (forwardDelta : Q) (lane : Z) :
  let t := advance cfg window gates s forwardDelta lane in
  (forall g, In g gates ->
     inWindow cfg (currentZ s + forwardDelta)%Q g = true ->
     gate_id g ∉ processedGates s ->
     exists e, In e (emittedEvents t) /\ ev_gate e = gate_id g)
  /\ (forall e, In e (emittedEvents t) ->
        exists g, In g gates /\ ev_gate e = gate_id g
          /\ ev_option e = selectedOption lane g
          /\ ev_delta e
             = calculateNewValue (playerValue s) (selectedOption lane g)
               - playerValue s)
  /\ playerValue (tk_state t)
     = match last (emittedEvents t) with
       | Some e => calculateNewValue (playerValue s) (ev_option e)
       | None => playerValue s
       end.
Proof.
  intros t. split; [| split].
  - intros g Hin Hw Hfresh.
    pose proof (advance_window cfg window gates s forwardDelta lane g Hin Hw) as Hp.
    rewrite advance_processed in Hp.
    apply elem_of_union in Hp as [Hp | Hp]; [| contradiction].
    apply elem_of_list_to_set, list_elem_of_In, in_map_iff in Hp
      as (e & He & Hine).
    exists e. auto.
  - intros e Hin.
    pose proof (advance_events cfg window gates s forwardDelta lane) as Hev.
    rewrite Forall_forall in Hev. apply list_elem_of_In in Hin.
    destruct (Hev e Hin) as (g & Hg & Hid & _ & _ & _ & Hopt & Hd).
    exists g. rewrite <- Hopt. auto.
  - apply advance_playerValue.
Qed.

(** Two gates share a tick: the events report +20 and +5, and the score
    becomes 10 + 5 = 15, not (10 * 3) + 5. *)
Example two_gates_one_tick :
  let t := advance denseConfig sampleWindow denseGates initialState (9 # 2) 0 in
  map (fun e => (ev_gate e, ev_delta e)) (emittedEvents t) = [(0, 20); (1, 5)]
  /\ playerValue (tk_state t) = 15
  /\ justFinished t = true.
Proof. vm_compute. auto. Qed.

(** ** Scenario A *)

(** C6: with one gate at 15 (threshold 2, initial score 10, multiply by 3
    on the left, add 50 on the right), a tick with forward delta 15 in the
    left lane resolves gate 0 with the left option: the score becomes 30,
    one event for gate 0 with delta 20 is emitted, and the tick reports
    that the run has just finished. *)
Theorem scenario_A (window : Window) :
  let t := advance scenarioConfig window scenarioGates initialState 15 0 in
  playerValue (tk_state t) = 30
  /\ map (fun e => (ev_gate e, ev_delta e)) (emittedEvents t) = [(0, 20)]
  /\ map ev_option (emittedEvents t) = [makeOption multiply 3]
  /\ map (fun e => popup_value (ev_popup e)) (emittedEvents t) = ["+20"%string]
  /\ processedGates (tk_state t) = {[0]}
  /\ justFinished t = true
  /\ timeouts (tk_state t) = [30].
Proof. vm_compute. repeat split; reflexivity. Qed.

(** ** The score stays non-negative *)

Lemma wellFormedOption_positive (o : GateOption) :
  wellFormedOption o -> 0 < op_value o.
Proof. unfold wellFormedOption. destruct (op_type o); lia. Qed.

Lemma numbered_In (cfg : GameConfig) (gs : list GateData) (i : Z) (g : GateData) :
  numbered cfg i gs -> In g gs ->
  i <= gate_id g < i + Z.of_nat (length gs)
  /\ zPosition g = (inject_Z (gate_id g + 1) * gateSpacing cfg)%Q
  /\ wellFormedOption (leftOption g) /\ wellFormedOption (rightOption g).
Proof.
  intros Hn Hin. apply In_nth_error in Hin as (j & Hj).
  destruct (numbered_nth cfg gs i j g Hn Hj) as (Hid & Hrest).
  split; [| exact Hrest].
  assert (j < length gs)%nat by (apply nth_error_Some; congruence). lia.
Qed.

Lemma advance_nonneg (cfg : GameConfig) (window : Window)
    (gates : list GateData) (s : GameState) (forwardDelta : Q) (lane : Z) :
  (forall g, In g gates ->
     0 <= op_value (leftOption g) /\ 0 <= op_value (rightOption g)) ->
  0 <= playerValue s ->
  0 <= playerValue (tk_state (advance cfg window gates s forwardDelta lane)).
Proof.
  intros Hops Hs. rewrite advance_playerValue.
  destruct (last _) as [e |] eqn:Hlast; [| exact Hs].
  apply last_Some_elem_of in Hlast.
  pose proof (advance_events cfg window gates s forwardDelta lane) as Hev.
  rewrite Forall_forall in Hev.
  destruct (Hev e Hlast) as (g & Hg & _ & _ & _ & _ & -> & _).
  apply calculateNewValue_nonneg; [exact Hs |].
  unfold selectedOption. destruct (lane =? 0); apply (Hops g Hg).
Qed.

Lemma run_nonneg (cfg : GameConfig) (window : Window) (gates : list GateData)
    (ticks : list (Q * Z)) :
  (forall g, In g gates ->
     0 <= op_value (leftOption g) /\ 0 <= op_value (rightOption g)) ->
  forall s, 0 <= playerValue s ->
  0 <= playerValue (fst (run cfg window gates s ticks)).
Proof.
  intros Hops. induction ticks as [| [fd lane] ticks IH]; intros s Hs.
  - exact Hs.
  - cbn [run fst]. apply IH. now apply advance_nonneg.
Qed.

(** C9: when the gates come from the generator (operands in the
    configured positive ranges) and the score is non-negative at the
    start, the score is non-negative after every tick of every run,
    whichever forward deltas and lanes the ticks carry. *)
Theorem score_never_negative (cfg : GameConfig) (window : Window)
    (src : RandomSource) (k k' : nat) (gates : list GateData)
    (s : GameState) (ticks : list (Q * Z)) :
  unit_interval src ->
  generatedGates cfg src k = Some (gates, k') ->
  0 <= playerValue s ->
  0 <= playerValue (fst (run cfg window gates s ticks)).
Proof.
  intros Hsrc Hgen Hs.
  destruct (generatedGates_numbered cfg src k Hsrc) as (gs & Hrun & _ & Hnum).
  rewrite Hgen in Hrun. injection Hrun as <- _.
  apply run_nonneg; [| exact Hs].
  intros g Hg.
  destruct (numbered_In cfg gates 0 g Hnum Hg) as (_ & _ & Hl & Hr).
  apply wellFormedOption_positive in Hl, Hr. lia.
Qed.

Lemma halfGates_generated :
  generatedGates GAME_CONFIG half 0%nat = Some (halfGates, 40%nat).
Proof. vm_compute. reflexivity. Defined.

Lemma score_never_negative_witness :
  0 <= playerValue
         (fst (run GAME_CONFIG sampleWindow halfGates initialState
                 [(15%Q, 0); (15%Q, 1); (15%Q, 0)])).
Proof.
  apply (score_never_negative GAME_CONFIG sampleWindow half 0%nat 40%nat).
  - exact half_unit_interval.
  - exact halfGates_generated.
  - vm_compute. discriminate.
Defined.

(** ** After the last gate *)

Section Forward.

Variable cfg : GameConfig.
Variable window : Window.
Variable gates : list GateData.

Lemma behind_outside s g forwardDelta :
  behind cfg s g -> (0 <= forwardDelta)%Q ->
  inWindow cfg (currentZ s + forwardDelta)%Q g = false.
Proof.
  unfold behind; intros Hb Hfd. apply inWindow_false_iff. right. lra.
Qed.

Lemma settled_advance s forwardDelta lane :
  settled cfg gates s -> (0 <= forwardDelta)%Q ->
  emittedEvents (advance cfg window gates s forwardDelta lane) = []
  /\ tk_state (advance cfg window gates s forwardDelta lane)
     = moved lane (currentZ s + forwardDelta)%Q s.
Proof.
  intros Hset Hfd.
  assert (Hnil : emittedEvents (advance cfg window gates s forwardDelta lane) = []).
  { apply advance_no_hit. intros g Hin Hw.
    destruct (Hset g Hin) as [Hp | Hb]; [exact Hp |].
    rewrite (behind_outside s g forwardDelta Hb Hfd) in Hw. discriminate. }
  split; [exact Hnil | now apply advance_quiet].
Qed.

Lemma settled_moved s forwardDelta lane :
  settled cfg gates s -> (0 <= forwardDelta)%Q ->
  settled cfg gates (moved lane (currentZ s + forwardDelta)%Q s).
Proof.
  intros Hset Hfd g Hin. destruct (Hset g Hin) as [Hp | Hb].
  - left. exact Hp.
  - right. unfold behind in *. cbn. lra.
Qed.


End Forward.

Lemma inject_Z_mult_le (a b : Z) (q : Q) :
  a <= b -> (0 <= q)%Q -> (inject_Z a * q <= inject_Z b * q)%Q.
Proof.
  intros Hab Hq. apply Qmult_le_compat_r; [| exact Hq].
  now rewrite <- Zle_Qle.
Qed.

(** Right after the tick that resolves the last generated gate, every
    gate is processed or behind the runner. *)
Lemma last_gate_settles (cfg : GameConfig) (window : Window)
    (gates : list GateData) (s : GameState) (forwardDelta : Q) (lane : Z) :
  (0 <= gateSpacing cfg)%Q ->
  numbered cfg 0 gates ->
  length gates = Z.to_nat (totalGates cfg) ->
  In (totalGates cfg - 1)
     (map ev_gate (emittedEvents (advance cfg window gates s forwardDelta lane))) ->
  settled cfg gates (tk_state (advance cfg window gates s forwardDelta lane)).
Proof.
  intros Hsp Hnum Hlen Hlast g Hin.
  apply in_map_iff in Hlast as (e & Hid & He).
  pose proof (advance_events cfg window gates s forwardDelta lane) as Hev.
  rewrite Forall_forall in Hev. apply list_elem_of_In in He.
  destruct (Hev e He) as (gl & Hgl & Hidl & Hwl & _).
  destruct (numbered_In cfg gates 0 gl Hnum Hgl) as (_ & Hposl & _).
  destruct (numbered_In cfg gates 0 g Hnum Hin) as (Hrange & Hpos & _).
  destruct (inWindow cfg (currentZ s + forwardDelta)%Q g) eqn:Hw.
  - left. now apply advance_window.
  - right. unfold behind. rewrite advance_currentZ.
    apply inWindow_false_iff in Hw. apply inWindow_true_iff in Hwl.
    destruct Hw as [Hw | Hw]; [| exact Hw].
    exfalso.
    assert (Hle : (zPosition g <= zPosition gl)%Q).
    { rewrite Hpos, Hposl. apply inject_Z_mult_le; [lia | exact Hsp]. }
    lra.
Qed.





(** ** Gates the runner jumps over *)

Lemma NoDup_map_In_eq {A B} (f : A -> B) (l : list A) (a b : A) :
  NoDup (map f l) -> In a l -> In b l -> f a = f b -> a = b.
Proof.
  induction l as [| x l IH]; intros Hnd Ha Hb Hf; [destruct Ha |].
  cbn in Hnd. apply NoDup_cons in Hnd as [Hx Hnd].
  destruct Ha as [<- | Ha], Hb as [<- | Hb]; auto.
  - exfalso. apply Hx. rewrite Hf. apply list_elem_of_In. now apply in_map.
  - exfalso. apply Hx. rewrite <- Hf. apply list_elem_of_In. now apply in_map.
Qed.

Section Skipped.

Variable cfg : GameConfig.
Variable window : Window.
Variable gates : list GateData.
Variable g : GateData.
Hypothesis g_in : In g gates.
Hypothesis ids_unique : NoDup (map gate_id gates).



End Skipped.



(** The later ticks of the run above do resolve gates 1 and 2. *)
Example skipped_gate_run_events :
  let t := advance GAME_CONFIG sampleWindow halfGates initialState 18 0 in
  let r := run GAME_CONFIG sampleWindow halfGates (tk_state t)
             [(12%Q, 0); (15%Q, 1)] in
  emittedEvents t = [] /\ map ev_gate (snd r) = [1; 2].
Proof. vm_compute. auto. Qed.



(** ** Arguments the code does not validate *)

(** C2 does not hold as stated: the code has no validation and no error.
    In scenario A, from position 18 (gate 0 jumped over) a forward delta of
    -2 is accepted: the runner moves back to 16, gate 0 resolves, an event
    is emitted and the score changes.  A lane value of 7 is accepted too
    and selects the right option. *)
Lemma invalid_arguments_are_accepted :
  let s := tk_state (advance scenarioConfig sampleWindow scenarioGates
                       initialState 18 0) in
  let t := advance scenarioConfig sampleWindow scenarioGates s (-2) 0 in
  let t' := advance scenarioConfig sampleWindow scenarioGates initialState 15 7 in
  ((-2 < 0)%Q /\ 7 <> 0 /\ 7 <> 1)
  /\ (currentZ s == 18 /\ playerValue s = 10 /\ processedGates s = ∅)
  /\ (currentZ (tk_state t) == 16
      /\ playerValue (tk_state t) = 30
      /\ processedGates (tk_state t) = {[0]}
      /\ map (fun e => (ev_gate e, ev_delta e)) (emittedEvents t) = [(0, 20)])
  /\ (targetLane (tk_state t') = 7
      /\ playerValue (tk_state t') = 60
      /\ processedGates (tk_state t') = {[0]}
      /\ map (fun e => (ev_gate e, ev_delta e)) (emittedEvents t') = [(0, 50)]).
Proof. vm_compute. repeat split; congruence. Qed.

(** C2, amended: [advance] has no failure path.  For every state, every
    forward delta (negative ones included) and every lane value, the tick
    moves the runner to [currentZ + forwardDelta], records the lane, leaves
    every gate whose window contains the new position processed, and each
    event it emits is for an unprocessed gate inside that window, scored
    with the left option when the lane is 0 and with the right option for
    any other lane value. *)
Theorem advance_accepts_every_input (cfg : GameConfig) (window : Window)
    (gates : list GateData) (s : GameState) (forwardDelta : Q) (lane : Z) :
  let t := advance cfg window gates s forwardDelta lane in
  currentZ (tk_state t) = (currentZ s + forwardDelta)%Q
  /\ playerZ (tk_state t) = (currentZ s + forwardDelta)%Q
  /\ targetLane (tk_state t) = lane
  /\ (forall g, In g gates ->
        inWindow cfg (currentZ s + forwardDelta)%Q g = true ->
        gate_id g ∈ processedGates (tk_state t))
  /\ (forall e, In e (emittedEvents t) ->
        exists g, In g gates /\ ev_gate e = gate_id g
          /\ inWindow cfg (currentZ s + forwardDelta)%Q g = true
          /\ (gate_id g ∉ processedGates s)
          /\ ev_option e = if lane =? 0 then leftOption g else rightOption g).
Proof.
  intros t.
  destruct (advance_inv cfg window gates s forwardDelta lane)
    as (_ & _ & _ & _ & (Hl & Hz & _) & _).
  moved_simpl Hl. moved_simpl Hz.
  split; [apply advance_currentZ |].
  split; [exact Hz |]. split; [exact Hl |]. split.
  - intros g. apply advance_window.
  - intros e Hin.
    pose proof (advance_events cfg window gates s forwardDelta lane) as Hev.
    rewrite Forall_forall in Hev. apply list_elem_of_In in Hin.
    destruct (Hev e Hin) as (g & Hg & Hid & Hw & Hfresh & _ & Hopt & _).
    exists g. auto.
Qed.

(** * Further properties of the component *)

(** ** Drawing options *)

Lemma getRandomOption_decorated (src : RandomSource) (k k' : nat)
    (o : GateOption) :
  getRandomOption src k = Some (o, k') -> decorated o /\ k' = S (S k).
Proof.
  unfold getRandomOption, bind, Math_random, at_index.
  destruct (_ <? 0); [discriminate |].
  destruct (nth_error _ _) as [[t range] |]; [| discriminate].
  cbn. destruct t; intros H; injection H as <- <-; repeat split.
Qed.

Lemma Qfloor_scaled_index (r : Q) (n : Z) :
  0 < n ->
  (0 <= Qfloor (r * inject_Z n) < n <-> (0 <= r)%Q /\ (r < 1)%Q).
Proof.
  intros Hn.
  assert (Hq : (0 < inject_Z n)%Q) by (rewrite (Zlt_Qlt 0 n) in Hn; exact Hn).
  split; [| intros [H0 H1]; now apply Qfloor_scaled_bounds].
  intros [Hlo Hhi]. split.
  - destruct (Qlt_le_dec r 0) as [Hneg | Hpos]; [| exact Hpos].
    exfalso.
    assert (Hlt : (inject_Z (Qfloor (r * inject_Z n)) < 0)%Q).
    { apply Qle_lt_trans with (r * inject_Z n)%Q; [apply Qfloor_le | nra]. }
    change 0%Q with (inject_Z 0) in Hlt. rewrite <- Zlt_Qlt in Hlt. lia.
  - destruct (Qlt_le_dec r 1) as [Hlt | Hge]; [exact Hlt |].
    exfalso.
    assert (Hle : n <= Qfloor (r * inject_Z n)).
    { rewrite <- (Qfloor_Z n) at 1. apply Qfloor_resp_le. nra. }
    lia.
Qed.

(** X1: [getRandomOption] fails (the [TypeError] of reading [op.type] of
    [undefined]) exactly when the number drawn for the kind lies outside
    [0, 1); the number drawn for the operand plays no part in it. *)
Theorem getRandomOption_fails_iff (src : RandomSource) (k : nat) :
  getRandomOption src k = None <-> (src k < 0)%Q \/ (1 <= src k)%Q.
Proof.
  pose proof (Qfloor_scaled_index (src k) 3 ltac:(lia)) as Hidx.
  unfold getRandomOption, bind, Math_random, at_index.
  change (Z.of_nat (length operations)) with 3.
  destruct (Z.ltb_spec (Qfloor (src k * inject_Z 3)) 0) as [Hneg | Hnn].
  - split; [intros _ | reflexivity].
    destruct (Qlt_le_dec (src k) 0); [now left |].
    destruct (Qlt_le_dec (src k) 1); [| now right].
    exfalso. assert (0 <= Qfloor (src k * inject_Z 3) < 3) by (apply Hidx; auto). lia.
  - destruct (Z.ltb_spec (Qfloor (src k * inject_Z 3)) 3) as [Hlt | Hge].
    + assert (Hin : (0 <= src k)%Q /\ (src k < 1)%Q) by (apply Hidx; lia).
      assert (Hcase : Qfloor (src k * inject_Z 3) = 0
                      \/ Qfloor (src k * inject_Z 3) = 1
                      \/ Qfloor (src k * inject_Z 3) = 2) by lia.
      split.
      * destruct Hcase as [-> | [-> | ->]]; cbn; discriminate.
      * intros [H | H]; lra.
    + split.
      * intros _. destruct (Qlt_le_dec (src k) 1) as [Hlt |]; [| now right].
        destruct (Qlt_le_dec (src k) 0); [now left |].
        exfalso.
        assert (0 <= Qfloor (src k * inject_Z 3) < 3) by (apply Hidx; auto). lia.
      * intros _.
        destruct (nth_error operations (Z.to_nat (Qfloor (src k * inject_Z 3))))
          eqn:Hnth; [| reflexivity].
        assert (Hb : (Z.to_nat (Qfloor (src k * inject_Z 3)) < length operations)%nat)
          by (apply nth_error_Some; congruence).
        change (length operations) with 3%nat in Hb. lia.
Qed.

Lemma generateGateOptions_decorated (src : RandomSource) (k k' : nat)
    (l r : GateOption) :
  generateGateOptions src k = Some ((l, r), k') -> decorated l /\ decorated r.
Proof.
  unfold generateGateOptions, bind.
  destruct (getRandomOption src k) as [[l0 k0] |] eqn:Hl; [| discriminate].
  destruct (getRandomOption src k0) as [[r0 k1] |] eqn:Hr; [| discriminate].
  cbn. intros H; injection H as <- <- <-.
  apply getRandomOption_decorated in Hl, Hr. tauto.
Qed.

Lemma gates_loop_decorated (cfg : GameConfig) (src : RandomSource) (n : nat) :
  forall (i : Z) (acc res : list GateData) (k k' : nat),
  gates_loop cfg n i acc src k = Some (res, k') ->
  Forall (fun g => decorated (leftOption g) /\ decorated (rightOption g)) acc ->
  Forall (fun g => decorated (leftOption g) /\ decorated (rightOption g)) res.
Proof.
  induction n as [| n IH]; intros i acc res k k' Hrun Hacc.
  - cbn in Hrun. injection Hrun as <- <-. exact Hacc.
  - cbn [gates_loop] in Hrun. unfold bind at 1 in Hrun.
    destruct (generateGateOptions src k) as [[[l r] k0] |] eqn:Hopt;
      [| discriminate].
    apply (IH _ _ _ _ _ Hrun). apply Forall_app. split; [exact Hacc |].
    constructor; [| constructor]. cbn.
    now apply generateGateOptions_decorated in Hopt.
Qed.

(** X2: for every random source of [0, 1) the generator uses exactly four
    random numbers per gate, and both options of every gate it returns
    have an operand in the inclusive range of their kind, the colour of
    their kind and the label "symbol followed by the operand". *)
Theorem generatedGates_options (cfg : GameConfig) (src : RandomSource)
    (k : nat) :
  unit_interval src ->
  exists gs,
    generatedGates cfg src k
      = Some (gs, (4 * Z.to_nat (totalGates cfg) + k)%nat)
    /\ forall g o, In g gs -> o = leftOption g \/ o = rightOption g ->
         inRange (op_type o) (op_value o) /\ decorated o.
Proof.
  intros Hsrc.
  destruct (generatedGates_numbered cfg src k Hsrc) as (gs & Hrun & _ & Hnum).
  exists gs. split; [exact Hrun |].
  intros g o Hg Ho.
  pose proof (gates_loop_decorated cfg src _ _ _ _ _ _ Hrun
                (List.Forall_nil _)) as Hdec.
  rewrite Forall_forall in Hdec. apply list_elem_of_In in Hg as Hg'.
  destruct (Hdec g Hg') as [Hdl Hdr].
  destruct (numbered_In cfg gs 0 g Hnum Hg) as (_ & _ & Hwl & Hwr).
  assert (Hwf : wellFormedOption o) by (destruct Ho as [-> | ->]; assumption).
  split; [| destruct Ho as [-> | ->]; assumption].
  unfold wellFormedOption in Hwf. unfold inRange. destruct (op_type o); tauto.
Qed.

Lemma generatedGates_options_witness :
  exists gs,
    generatedGates GAME_CONFIG half 0%nat
      = Some (gs, (4 * Z.to_nat (totalGates GAME_CONFIG) + 0)%nat)
    /\ forall g o, In g gs -> o = leftOption g \/ o = rightOption g ->
         inRange (op_type o) (op_value o) /\ decorated o.
Proof.
  exact (generatedGates_options GAME_CONFIG half 0%nat half_unit_interval).
Defined.

Lemma Qfloor_mid (j : Z) (m : positive) :
  Qfloor (((2 * j + 1) # (2 * m)) * inject_Z (Z.pos m)) = j.
Proof.
  unfold Qfloor, Qmult, inject_Z. cbn [Qnum Qden].
  rewrite Pos.mul_1_r. symmetry.
  apply (Z.div_unique _ _ j (Z.pos m)); [lia |].
  rewrite Pos2Z.inj_mul. ring.
Qed.

Lemma mid_unit (j : Z) (m : positive) :
  0 <= j < Z.pos m ->
  (0 <= (2 * j + 1) # (2 * m))%Q /\ ((2 * j + 1) # (2 * m) < 1)%Q.
Proof.
  intros Hj. unfold Qle, Qlt. cbn [Qnum Qden]. rewrite Pos2Z.inj_mul. lia.
Qed.

Lemma getRandomOption_at (src : RandomSource) (k i : nat)
    (t : OperationType) (lo hi : Z) :
  Qfloor (src k * inject_Z 3) = Z.of_nat i ->
  nth_error operations i = Some (t, (lo, hi)) ->
  getRandomOption src k
  = Some (makeOption t (Qfloor (src (S k) * inject_Z (hi - lo + 1)) + lo),
          S (S k)).
Proof.
  intros Hi Hnth. unfold getRandomOption, bind, Math_random, at_index.
  change (Z.of_nat (length operations)) with 3. rewrite Hi.
  destruct (Z.ltb_spec (Z.of_nat i) 0) as [Hneg | _]; [lia |].
  rewrite Nat2Z.id, Hnth. unfold ret. cbn [fst snd].
  destruct t; reflexivity.
Qed.

(** X3: every kind and every operand of its inclusive range, the two ends
    included, can be drawn: there are two numbers of [0, 1) for which
    [getRandomOption] returns that option. *)
Theorem every_option_can_be_drawn (t : OperationType) (v : Z) :
  inRange t v ->
  exists r1 r2 : Q,
    ((0 <= r1)%Q /\ (r1 < 1)%Q) /\ ((0 <= r2)%Q /\ (r2 < 1)%Q)
    /\ forall (src : RandomSource) (k : nat),
         src k = r1 -> src (S k) = r2 ->
         getRandomOption src k = Some (makeOption t v, S (S k)).
Proof.
  intros Hv. destruct t; cbn in Hv.
  - exists (1 # 6)%Q, ((2 * (v - 2) + 1) # (2 * 3))%Q.
    split; [split; [discriminate | reflexivity] |].
    split; [apply mid_unit; lia |].
    intros src k H1 H2.
    rewrite (getRandomOption_at src k 0 multiply 2 4);
      [| rewrite H1; reflexivity | reflexivity].
    rewrite H2. change (4 - 2 + 1) with (Z.pos 3).
    rewrite Qfloor_mid. do 3 f_equal. lia.
  - exists (3 # 6)%Q, ((2 * (v - 10) + 1) # (2 * 91))%Q.
    split; [split; [discriminate | reflexivity] |].
    split; [apply mid_unit; lia |].
    intros src k H1 H2.
    rewrite (getRandomOption_at src k 1 add 10 100);
      [| rewrite H1; reflexivity | reflexivity].
    rewrite H2. change (100 - 10 + 1) with (Z.pos 91).
    rewrite Qfloor_mid. do 3 f_equal. lia.
  - exists (5 # 6)%Q, ((2 * (v - 5) + 1) # (2 * 46))%Q.
    split; [split; [discriminate | reflexivity] |].
    split; [apply mid_unit; lia |].
    intros src k H1 H2.
    rewrite (getRandomOption_at src k 2 subtract 5 50);
      [| rewrite H1; reflexivity | reflexivity].
    rewrite H2. change (50 - 5 + 1) with (Z.pos 46).
    rewrite Qfloor_mid. do 3 f_equal. lia.
Qed.

Lemma every_option_can_be_drawn_witness :
  exists r1 r2 : Q,
    ((0 <= r1)%Q /\ (r1 < 1)%Q) /\ ((0 <= r2)%Q /\ (r2 < 1)%Q)
    /\ forall (src : RandomSource) (k : nat),
         src k = r1 -> src (S k) = r2 ->
         getRandomOption src k = Some (makeOption subtract 50, S (S k)).
Proof. apply (every_option_can_be_drawn subtract 50). cbn. lia. Defined.

(** ** Comparisons *)

Lemma Qltb_true_iff (a b : Q) : Qltb a b = true <-> (a < b)%Q.
Proof.
  unfold Qltb. destruct (Qlt_le_dec a b) as [H | H]; split; auto.
  - discriminate.
  - intros H'. exfalso. apply (Qlt_irrefl a). eapply Qlt_le_trans; eassumption.
Qed.

Lemma Qltb_false_iff (a b : Q) : Qltb a b = false <-> (b <= a)%Q.
Proof.
  unfold Qltb. destruct (Qlt_le_dec a b) as [H | H]; split; auto.
  - discriminate.
  - intros H'. exfalso. apply (Qlt_irrefl a). eapply Qlt_le_trans; eassumption.
Qed.

(** ** The camera *)

Lemma camera_step (z : Q) (c : Camera) :
  (cam_z c <= z - 8)%Q ->
  (cam_z c <= cam_z (CameraController_useFrame z c))%Q
  /\ (cam_z (CameraController_useFrame z c) <= z - 8)%Q.
Proof. cbn. intros H. split; lra. Qed.

Lemma last_cons_default {A} (a b : A) (l : list A) (d d' : A) :
  List.last (a :: b :: l) d = List.last (b :: l) d'.
Proof.
  change (List.last (b :: l) d = List.last (b :: l) d').
  revert b. induction l as [| c l IH]; intros b; [reflexivity |].
  exact (IH c).
Qed.

(** X5: the camera follows without ever closing in.  If it starts on the
    centre line at height 5 and at least 8 units behind the runner, then
    after any frames in which the runner does not go back it is still on
    the centre line at height 5, it has not moved backwards, and it is
    still at least 8 units behind the runner's last position. *)
Theorem camera_stays_behind (zs : list Q) :
  forall (z0 : Q) (c : Camera),
  (cam_x c == 0)%Q -> (cam_y c == 5)%Q -> (cam_z c <= z0 - 8)%Q ->
  ascending z0 zs ->
  (cam_x (cameraFrames c zs) == 0)%Q
  /\ (cam_y (cameraFrames c zs) == 5)%Q
  /\ (cam_z c <= cam_z (cameraFrames c zs))%Q
  /\ (cam_z (cameraFrames c zs) <= List.last zs z0 - 8)%Q.
Proof.
  induction zs as [| z zs IH]; intros z0 c Hx Hy Hz Hasc.
  - cbn. repeat split; auto; lra.
  - destruct Hasc as [Hz0 Hasc].
    assert (Hz' : (cam_z c <= z - 8)%Q) by lra.
    destruct (camera_step z c Hz') as [Hlo Hhi].
    destruct (IH z (CameraController_useFrame z c)) as (Hx' & Hy' & Hlo' & Hhi');
      try assumption.
    { cbn. rewrite Hx. ring. }
    { cbn. rewrite Hy. ring. }
    unfold cameraFrames in *. cbn [fold_left].
    split; [exact Hx' |]. split; [exact Hy' |]. split; [lra |].
    destruct zs as [| z' zs']; [exact Hhi' |].
    now rewrite (last_cons_default z z' zs' z0 z).
Qed.

Lemma camera_stays_behind_witness :
  (cam_x (cameraFrames initialCamera [6%Q; 6%Q; 12%Q]) == 0)%Q
  /\ (cam_y (cameraFrames initialCamera [6%Q; 6%Q; 12%Q]) == 5)%Q
  /\ (cam_z initialCamera <= cam_z (cameraFrames initialCamera [6%Q; 6%Q; 12%Q]))%Q
  /\ (cam_z (cameraFrames initialCamera [6%Q; 6%Q; 12%Q])
      <= List.last [6%Q; 6%Q; 12%Q] 0 - 8)%Q.
Proof.
  apply (camera_stays_behind [6%Q; 6%Q; 12%Q] 0 initialCamera).
  - reflexivity.
  - reflexivity.
  - vm_compute. discriminate.
  - cbn. repeat split; vm_compute; discriminate.
Defined.

(** ** Culling and the preview *)

Lemma generated_numbered (cfg : GameConfig) (src : RandomSource) (k k' : nat)
    (gates : list GateData) :
  unit_interval src ->
  generatedGates cfg src k = Some (gates, k') ->
  numbered cfg 0 gates /\ length gates = Z.to_nat (totalGates cfg).
Proof.
  intros Hsrc Hgen.
  destruct (generatedGates_numbered cfg src k Hsrc) as (gs & Hrun & Hlen & Hnum).
  rewrite Hgen in Hrun. injection Hrun as <- _. auto.
Qed.

Lemma GateManager_renders (gates : list GateData) (playerZ : Q) (g : GateData) :
  In (Some g) (GateManager gates playerZ)
  <-> In g gates
      /\ (-10 <= zPosition g - playerZ)%Q /\ (zPosition g - playerZ <= 50)%Q.
Proof.
  unfold GateManager. rewrite in_map_iff. split.
  - intros (g' & Heq & Hin).
    destruct (Qltb (zPosition g' - playerZ) (-10)) eqn:Ha; [discriminate |].
    destruct (Qltb 50 (zPosition g' - playerZ)) eqn:Hb; [discriminate |].
    cbn in Heq. injection Heq as ->.
    apply Qltb_false_iff in Ha, Hb. auto.
  - intros (Hin & Ha & Hb). exists g. split; [| exact Hin].
    apply Qltb_false_iff in Ha, Hb. now rewrite Ha, Hb.
Qed.

(** X6: a gate that can resolve is on screen.  When the collision
    threshold is at most 10, every gate inside the collision window at
    the runner's position is rendered by [GateManager] at that position. *)
Theorem gate_in_window_is_rendered (cfg : GameConfig)
    (gates : list GateData) (z : Q) (g : GateData) :
  (collisionThreshold cfg <= 10)%Q ->
  In g gates -> inWindow cfg z g = true ->
  In (Some g) (GateManager gates z).
Proof.
  intros Hth Hin Hw. apply GateManager_renders. split; [exact Hin |].
  apply inWindow_true_iff in Hw. split; lra.
Qed.

Lemma gate_in_window_is_rendered_witness :
  In (Some halfGate0) (GateManager halfGates 16).
Proof.
  apply (gate_in_window_is_rendered GAME_CONFIG halfGates 16 halfGate0).
  - vm_compute. discriminate.
  - vm_compute. left. reflexivity.
  - vm_compute. reflexivity.
Defined.

Lemma nextGate_some (cfg : GameConfig) (gates : list GateData) (z : Q)
    (g : GateData) :
  nextGate cfg gates z = Some g ->
  In g gates
  /\ (0 < zPosition g - z)%Q /\ (zPosition g - z < gateSpacing cfg + 5)%Q.
Proof.
  unfold nextGate. intros H. apply find_some in H as [Hin Hf].
  apply andb_true_iff in Hf as [Ha Hb].
  apply Qltb_true_iff in Ha, Hb. auto.
Qed.

Lemma numbered_positions_le (cfg : GameConfig) (gs : list GateData) (i : Z)
    (g : GateData) :
  (0 <= gateSpacing cfg)%Q -> numbered cfg i gs -> In g gs ->
  (inject_Z (i + 1) * gateSpacing cfg <= zPosition g)%Q.
Proof.
  intros Hsp Hnum Hin.
  destruct (numbered_In cfg gs i g Hnum Hin) as (Hid & -> & _).
  apply inject_Z_mult_le; [lia | exact Hsp].
Qed.

Lemma nextGate_nearest (cfg : GameConfig) (z : Q) (gs : list GateData) :
  (0 <= gateSpacing cfg)%Q ->
  forall (i : Z) (g : GateData),
  numbered cfg i gs -> nextGate cfg gs z = Some g ->
  forall g', In g' gs -> (z < zPosition g')%Q -> (zPosition g <= zPosition g')%Q.
Proof.
  intros Hsp. induction gs as [| h gs IH]; intros i g Hnum Hfind g' Hin Hz.
  - destruct Hin.
  - pose proof Hnum as (Hid & Hpos & _ & _ & Hnum').
    unfold nextGate in Hfind. cbn [find] in Hfind.
    destruct (Qltb 0 (zPosition h - z) && Qltb (zPosition h - z) (gateSpacing cfg + 5))
      eqn:Hf.
    + injection Hfind as <-. rewrite Hpos.
      now apply (numbered_positions_le cfg (h :: gs) i g').
    + fold (nextGate cfg gs z) in Hfind. destruct Hin as [<- | Hin].
      * exfalso. apply nextGate_some in Hfind as (Hg & _ & Hclose).
        pose proof (numbered_positions_le cfg gs (i + 1) g Hsp Hnum' Hg) as Hle.
        assert (Hhg : (zPosition h <= zPosition g)%Q).
        { rewrite Hpos. eapply Qle_trans; [| exact Hle].
          apply inject_Z_mult_le; [lia | exact Hsp]. }
        apply andb_false_iff in Hf as [Hf | Hf]; apply Qltb_false_iff in Hf; lra.
      * now apply (IH (i + 1) g Hnum' Hfind).
Qed.

(** X7: the preview shows the nearest gate ahead.  For generated gates
    with a non-negative spacing, the gate [nextGate] returns is one of the
    gates, lies ahead of the runner by less than the spacing plus 5, and no
    gate ahead of the runner is nearer. *)
Theorem nextGate_is_nearest_ahead (cfg : GameConfig) (src : RandomSource)
    (k k' : nat) (gates : list GateData) (z : Q) (g : GateData) :
  unit_interval src ->
  generatedGates cfg src k = Some (gates, k') ->
  (0 <= gateSpacing cfg)%Q ->
  nextGate cfg gates z = Some g ->
  In g gates
  /\ (0 < zPosition g - z)%Q /\ (zPosition g - z < gateSpacing cfg + 5)%Q
  /\ forall g', In g' gates -> (z < zPosition g')%Q ->
       (zPosition g <= zPosition g')%Q.
Proof.
  intros Hsrc Hgen Hsp Hfind.
  destruct (generated_numbered cfg src k k' gates Hsrc Hgen) as [Hnum _].
  destruct (nextGate_some cfg gates z g Hfind) as (Hin & Ha & Hb).
  repeat split; try assumption.
  now apply (nextGate_nearest cfg z gates Hsp 0 g).
Qed.

Lemma nextGate_is_nearest_ahead_witness :
  In halfGate0 halfGates
  /\ (0 < zPosition halfGate0 - 3)%Q
  /\ (zPosition halfGate0 - 3 < gateSpacing GAME_CONFIG + 5)%Q
  /\ forall g', In g' halfGates -> (3 < zPosition g')%Q ->
       (zPosition halfGate0 <= zPosition g')%Q.
Proof.
  apply (nextGate_is_nearest_ahead GAME_CONFIG half 0%nat 40%nat halfGates 3
           halfGate0).
  - exact half_unit_interval.
  - exact halfGates_generated.
  - vm_compute. discriminate.
  - vm_compute. reflexivity.
Defined.

Lemma nextGate_none (cfg : GameConfig) (z : Q) (gs : list GateData) :
  (forall g, In g gs ->
     (zPosition g <= z)%Q \/ (gateSpacing cfg + 5 <= zPosition g - z)%Q) ->
  nextGate cfg gs z = None.
Proof.
  intros Hall. unfold nextGate.
  destruct (find _ gs) as [g |] eqn:Hfind; [| reflexivity].
  exfalso. apply nextGate_some in Hfind as (Hin & Ha & Hb).
  destruct (Hall g Hin); lra.
Qed.

(** X8: no preview outside the course.  For generated gates with a
    non-negative spacing, [nextGate] finds no gate when the runner is 5
    units or more before the start line, and none when it has reached the
    position of the last gate. *)
Theorem nextGate_none_outside (cfg : GameConfig) (src : RandomSource)
    (k k' : nat) (gates : list GateData) (z : Q) :
  unit_interval src ->
  generatedGates cfg src k = Some (gates, k') ->
  (0 <= gateSpacing cfg)%Q ->
  (z <= -5)%Q \/ (inject_Z (totalGates cfg) * gateSpacing cfg <= z)%Q ->
  nextGate cfg gates z = None.
Proof.
  intros Hsrc Hgen Hsp Hout.
  destruct (generated_numbered cfg src k k' gates Hsrc Hgen) as [Hnum Hlen].
  apply nextGate_none. intros g Hin.
  destruct (numbered_In cfg gates 0 g Hnum Hin) as (Hid & Hpos & _).
  destruct Hout as [Hlo | Hhi].
  - right. rewrite Hpos.
    assert (Hge : (inject_Z 1 * gateSpacing cfg
                   <= inject_Z (gate_id g + 1) * gateSpacing cfg)%Q)
      by (apply inject_Z_mult_le; [lia | exact Hsp]).
    change (inject_Z 1) with 1%Q in Hge. lra.
  - left. rewrite Hpos.
    assert (Hle : (inject_Z (gate_id g + 1) * gateSpacing cfg
                   <= inject_Z (totalGates cfg) * gateSpacing cfg)%Q)
      by (apply inject_Z_mult_le; [lia | exact Hsp]).
    lra.
Qed.

Lemma nextGate_none_outside_witness :
  nextGate GAME_CONFIG halfGates 150 = None.
Proof.
  apply (nextGate_none_outside GAME_CONFIG half 0%nat 40%nat halfGates 150).
  - exact half_unit_interval.
  - exact halfGates_generated.
  - vm_compute. discriminate.
  - right. vm_compute. discriminate.
Defined.

(** X9: the previewed gate is on screen.  With a spacing of at most 45,
    the gate [nextGate] returns is among those [GateManager] renders at
    the same position. *)
Theorem nextGate_is_rendered (cfg : GameConfig) (gates : list GateData)
    (z : Q) (g : GateData) :
  (gateSpacing cfg <= 45)%Q ->
  nextGate cfg gates z = Some g ->
  In (Some g) (GateManager gates z).
Proof.
  intros Hsp Hfind. apply nextGate_some in Hfind as (Hin & Ha & Hb).
  apply GateManager_renders. split; [exact Hin |]. split; lra.
Qed.

Lemma nextGate_is_rendered_witness :
  In (Some halfGate0) (GateManager halfGates 3).
Proof.
  apply (nextGate_is_rendered GAME_CONFIG halfGates 3 halfGate0).
  - vm_compute. discriminate.
  - vm_compute. reflexivity.
Defined.

(** ** Popups *)

Section Popups.

Variable cfg : GameConfig.
Variable window : Window.

Lemma collide_events lane value z t g :
  collide cfg window lane value z t g = t
  \/ exists e,
       emittedEvents (collide cfg window lane value z t g)
       = emittedEvents t ++ [e]
       /\ ev_gate e = gate_id g
       /\ popup_id (ev_popup e) = popupIdCounter (tk_state t)
       /\ popup_color (ev_popup e) = op_color (ev_option e)
       /\ popup_value (ev_popup e) = popupText (ev_delta e)
       /\ scorePopups (tk_state (collide cfg window lane value z t g))
          = scorePopups (tk_state t) ++ [ev_popup e]
       /\ popupIdCounter (tk_state (collide cfg window lane value z t g))
          = popupIdCounter (tk_state t) + 1.
Proof.
  unfold collide.
  destruct (Qltb _ _ && negb _); [| now left].
  right. eexists. cbn. repeat split.
Qed.

Lemma popupInv_step s lane value z gs t g :
  popupInv s gs t ->
  popupInv s (gs ++ [g]) (collide cfg window lane value z t g).
Proof.
  intros (Hpop & Hcnt & Hids & Hlook & Hsub).
  destruct (collide_events lane value z t g)
    as [-> | (e & Hev & Hg & Hid & Hcol & Htxt & Hpop' & Hcnt')].
  - repeat split; try assumption.
    rewrite map_app. now apply sublist_inserts_r.
  - unfold popupInv. rewrite Hev, Hpop', Hcnt'.
    rewrite !map_app, length_app, Hpop, Hcnt. cbn [map length].
    split; [now rewrite <- app_assoc |].
    split; [lia |].
    split.
    { rewrite Hids, Hid, Hcnt.
      replace (Z.of_nat (length (emittedEvents t) + 1))
        with (Z.of_nat (length (emittedEvents t)) + 1) by lia.
      rewrite seqZ_app by lia. f_equal. }
    split.
    { apply Forall_app. split; [exact Hlook |]. constructor; auto. }
    rewrite Hg. apply sublist_app; [exact Hsub | reflexivity].
Qed.

Lemma popupInv_fold s lane value z gs :
  popupInv s gs
    (fold_left (collide cfg window lane value z) gs
       {| tk_state := s; emittedEvents := []; justFinished := false |}).
Proof.
  induction gs as [| g gs IH] using rev_ind.
  - unfold popupInv. cbn [tk_state emittedEvents map length].
    rewrite app_nil_r. split; [reflexivity |]. split; [cbn; lia |].
    split; [reflexivity |]. split; constructor.
  - rewrite fold_left_app. cbn [fold_left]. now apply popupInv_step.
Qed.

Lemma advance_popupInv gates s forwardDelta lane :
  popupInv s gates (advance cfg window gates s forwardDelta lane).
Proof.
  pose proof (popupInv_fold (moved lane (currentZ s + forwardDelta)%Q s) lane
                (playerValue s) (currentZ s + forwardDelta)%Q gates) as H.
  exact H.
Qed.

End Popups.

(** X10: every resolution queues exactly one popup.  After a tick the popup
    list is the old one followed by one popup per event, in order; their
    ids are consecutive from the popup counter, which advances by the
    number of events; and each popup has the colour of the option taken
    and shows the score difference, with a plus sign only when it is
    positive. *)
Theorem tick_queues_one_popup_per_event (cfg : GameConfig) (window : Window)
    (gates : list GateData) (s : GameState) (forwardDelta : Q) (lane : Z) :
  let t := advance cfg window gates s forwardDelta lane in
  scorePopups (tk_state t) = scorePopups s ++ map ev_popup (emittedEvents t)
  /\ popupIdCounter (tk_state t)
     = popupIdCounter s + Z.of_nat (length (emittedEvents t))
  /\ map (fun e => popup_id (ev_popup e)) (emittedEvents t)
     = seqZ (popupIdCounter s) (Z.of_nat (length (emittedEvents t)))
  /\ (forall e, In e (emittedEvents t) ->
        popup_color (ev_popup e) = op_color (ev_option e)
        /\ popup_value (ev_popup e)
           = if ev_delta e >? 0 then ("+" ++ pretty (ev_delta e))%string
             else pretty (ev_delta e)).
Proof.
  intros t.
  destruct (advance_popupInv cfg window gates s forwardDelta lane)
    as (Hpop & Hcnt & Hids & Hlook & _).
  split; [exact Hpop |]. split; [exact Hcnt |]. split; [exact Hids |].
  intros e He. rewrite Forall_forall in Hlook.
  apply list_elem_of_In in He. exact (Hlook e He).
Qed.

(** ** Invariants of a game *)

Lemma isLastGate_filter_nil (cfg : GameConfig) (evs : list ScoringEvent) :
  ~ In (totalGates cfg - 1) (map ev_gate evs) ->
  filter (fun e => isLastGate cfg e = true) evs = [].
Proof.
  induction evs as [| e evs IH]; intros Hno; [reflexivity |].
  rewrite filter_cons. case_decide as He.
  - exfalso. apply Hno. left. unfold isLastGate in He. lia.
  - apply IH. intros Hin. apply Hno. now right.
Qed.

Lemma isLastGate_filter_length (cfg : GameConfig) (evs : list ScoringEvent) :
  NoDup (map ev_gate evs) ->
  (length (filter (fun e => isLastGate cfg e = true) evs) <= 1)%nat.
Proof.
  induction evs as [| e evs IH]; intros Hnd; [cbn; lia |].
  cbn [map] in Hnd. apply NoDup_cons in Hnd as [Hfresh Hnd].
  rewrite filter_cons. case_decide as He.
  - rewrite isLastGate_filter_nil; [cbn; lia |].
    intros Hin. apply Hfresh. apply list_elem_of_In.
    unfold isLastGate in He. now replace (ev_gate e) with (totalGates cfg - 1) by lia.
  - now apply IH.
Qed.

Lemma isLastGate_filter_In (cfg : GameConfig) (evs : list ScoringEvent) :
  filter (fun e => isLastGate cfg e = true) evs <> [] ->
  In (totalGates cfg - 1) (map ev_gate evs).
Proof.
  intros Hne.
  destruct (in_dec Z.eq_dec (totalGates cfg - 1) (map ev_gate evs)) as [H | H];
    [exact H |].
  now rewrite isLastGate_filter_nil in Hne.
Qed.

Lemma isLastGate_filter_one (cfg : GameConfig) (evs : list ScoringEvent) :
  NoDup (map ev_gate evs) ->
  In (totalGates cfg - 1) (map ev_gate evs) ->
  length (filter (fun e => isLastGate cfg e = true) evs) = 1%nat.
Proof.
  intros Hnd Hin.
  pose proof (isLastGate_filter_length cfg evs Hnd) as Hle.
  apply in_map_iff in Hin as (e & He & Hin).
  assert (Hf : e ∈ filter (fun e => isLastGate cfg e = true) evs).
  { apply list_elem_of_filter. split; [| now apply list_elem_of_In].
    unfold isLastGate. lia. }
  destruct (filter _ evs) as [| a l]; [inversion Hf | cbn in *; lia].
Qed.

Section GameInvariant.

Variable cfg : GameConfig.
Variable window : Window.
Variable gates : list GateData.

Lemma gameInv_initial : gameInv cfg gates initialState.
Proof.
  unfold gameInv, initialState. cbn.
  split; [now left |]. split; [constructor |].
  split; [intros p Hp; destruct Hp |].
  split; [reflexivity |]. split; [set_solver |].
  split; [reflexivity |].
  case_bool_decide as Hin; [set_solver | reflexivity].
Qed.

Lemma gameInv_advance s forwardDelta lane :
  gameInv cfg gates s -> lane = 0 \/ lane = 1 ->
  gameInv cfg gates (tk_state (advance cfg window gates s forwardDelta lane)).
Proof.
  intros (_ & Hnd & Hids & Hcnt & Hsub & _ & Htime) Hlane.
  set (t := advance cfg window gates s forwardDelta lane).
  destruct (advance_inv cfg window gates s forwardDelta lane)
    as (_ & _ & _ & _ & (Hl & Hpz & Hcz & Hgo & _) & _).
  fold t in Hl, Hpz, Hcz, Hgo. moved_simpl Hl. moved_simpl Hpz.
  moved_simpl Hcz. moved_simpl Hgo.
  destruct (advance_popupInv cfg window gates s forwardDelta lane)
    as (Hpop & Hcnt' & Hpids & _ & _).
  fold t in Hpop, Hcnt', Hpids.
  pose proof (advance_processed cfg window gates s forwardDelta lane) as Hproc.
  pose proof (advance_NoDup cfg window gates s forwardDelta lane) as Hevnd.
  pose proof (advance_events cfg window gates s forwardDelta lane) as Hev.
  pose proof (advance_timeouts cfg window gates s forwardDelta lane) as Htm.
  fold t in Hproc, Hevnd, Hev, Htm.
  assert (Hfresh : forall x, In x (map ev_gate (emittedEvents t)) ->
                             x ∉ processedGates s).
  { intros x Hx. apply in_map_iff in Hx as (e & <- & He).
    now apply (advance_event_fresh cfg window gates s forwardDelta lane). }
  assert (Hc0 : 0 <= popupIdCounter s) by lia.
  unfold gameInv. split; [now rewrite Hl |].
  split.
  { rewrite Hpop, map_app, map_map, Hpids. apply NoDup_app.
    split; [exact Hnd |]. split; [| apply NoDup_seqZ].
    intros x Hx Hx'. apply elem_of_seqZ in Hx'.
    apply list_elem_of_In, in_map_iff in Hx as (p & <- & Hp).
    specialize (Hids p Hp). lia. }
  split.
  { intros p Hp. rewrite Hpop in Hp. apply in_app_or in Hp as [Hp | Hp].
    - specialize (Hids p Hp). lia.
    - assert (Hin : popup_id p
                    ∈ seqZ (popupIdCounter s)
                        (Z.of_nat (length (emittedEvents t)))).
      { rewrite <- Hpids. apply list_elem_of_In.
        apply in_map_iff in Hp as (e & <- & He).
        apply in_map_iff. exists e. auto. }
      apply elem_of_seqZ in Hin. lia. }
  split.
  { rewrite Hcnt', Hproc, size_union.
    - rewrite size_list_to_set by exact Hevnd.
      rewrite length_map, Hcnt. lia.
    - intros x Hx Hx'. apply elem_of_list_to_set, list_elem_of_In in Hx.
      now apply (Hfresh x). }
  split.
  { rewrite Hproc. intros x Hx. apply elem_of_union in Hx as [Hx | Hx]; [| auto].
    apply elem_of_list_to_set, list_elem_of_In, in_map_iff in Hx as (e & <- & He).
    rewrite Forall_forall in Hev. apply list_elem_of_In in He.
    destruct (Hev e He) as (g & Hg & -> & _).
    apply elem_of_list_to_set, list_elem_of_In, in_map. exact Hg. }
  split; [now rewrite Hpz, Hcz |].
  rewrite Htm, length_app, length_map, Hgo.
  pose proof (isLastGate_filter_length cfg (emittedEvents t) Hevnd) as Hlen.
  case_bool_decide as Hbefore.
  - rewrite isLastGate_filter_nil.
    + rewrite bool_decide_true by (rewrite Hproc; set_solver).
      cbn [length]. lia.
    + intros Hin. now apply (Hfresh _ Hin).
  - case_bool_decide as Hafter.
    + rewrite isLastGate_filter_one; [lia | exact Hevnd |].
      rewrite Hproc in Hafter.
      apply elem_of_union in Hafter as [Hafter | Hafter]; [| contradiction].
      now apply elem_of_list_to_set, list_elem_of_In in Hafter.
    + rewrite isLastGate_filter_nil; [cbn [length]; lia |].
      intros Hin. apply Hafter. rewrite Hproc.
      apply elem_of_union_l, elem_of_list_to_set, list_elem_of_In. exact Hin.
Qed.

Lemma gameInv_setTargetLane s lane :
  gameInv cfg gates s -> lane = 0 \/ lane = 1 ->
  gameInv cfg gates (setTargetLane lane s).
Proof.
  intros (_ & H) Hlane. split; [exact Hlane | exact H].
Qed.

Lemma filter_NoDup_map {A B} (f : A -> B) (P : A -> bool) (l : list A) :
  NoDup (map f l) -> NoDup (map f (List.filter P l)).
Proof.
  induction l as [| a l IH]; intros Hnd; [constructor |].
  cbn [map] in Hnd. apply NoDup_cons in Hnd as [Ha Hnd].
  cbn [List.filter]. destruct (P a); [| now apply IH].
  cbn [map]. apply NoDup_cons. split; [| now apply IH].
  intros Hin. apply Ha.
  apply list_elem_of_In, in_map_iff in Hin as (x & <- & Hx).
  apply List.filter_In in Hx as [Hx _].
  now apply list_elem_of_In, in_map.
Qed.

Lemma gameInv_removePopup s id :
  gameInv cfg gates s -> gameInv cfg gates (removePopup id s).
Proof.
  intros (Hl & Hnd & Hids & H). unfold gameInv, removePopup. cbn.
  split; [exact Hl |]. split; [now apply filter_NoDup_map |].
  split; [| exact H].
  intros p Hp. apply List.filter_In in Hp as [Hp _]. now apply Hids.
Qed.

Lemma gameInv_fireTimeout s :
  gameInv cfg gates s -> gameInv cfg gates (fireTimeout s).
Proof.
  intros (Hl & Hnd & Hids & Hcnt & Hsub & Hz & Htime).
  unfold fireTimeout. destruct (timeouts s) as [| v rest] eqn:Ht.
  - unfold gameInv. rewrite Ht. auto 10.
  - unfold gameInv. cbn.
    split; [exact Hl |]. split; [exact Hnd |]. split; [exact Hids |].
    split; [exact Hcnt |]. split; [exact Hsub |]. split; [exact Hz |].
    cbn [length] in Htime.
    destruct (bool_decide _), (gameOver s); cbn in *; lia.
Qed.

Lemma gameInv_dispatch s a :
  gameInv cfg gates s -> gameInv cfg gates (dispatch cfg window gates s a).
Proof.
  intros Hinv. destruct a as [delta | dx | | id]; cbn [dispatch].
  - destruct (gameOver s); [exact Hinv |].
    rewrite Player_useFrame_advance. apply gameInv_advance; [exact Hinv |].
    apply Hinv.
  - destruct (gameOver s); [exact Hinv |].
    unfold onPanResponderRelease.
    destruct (Qltb 30 (Qabs dx)); [| exact Hinv].
    destruct (Qltb 0 dx); apply gameInv_setTargetLane; auto.
  - now apply gameInv_fireTimeout.
  - now apply gameInv_removePopup.
Qed.

Lemma play_inv actions : forall s,
  gameInv cfg gates s -> gameInv cfg gates (play cfg window gates s actions).
Proof.
  induction actions as [| a actions IH]; intros s Hinv; [exact Hinv |].
  apply (IH (dispatch cfg window gates s a)). now apply gameInv_dispatch.
Qed.

End GameInvariant.

(** X11: the lane is always one that has a position.  Whatever frames,
    swipes, callbacks and popup completions a game goes through from its
    initial state, [targetLane] is 0 or 1, so with at least two lane
    positions configured the lane lookup of [Player] never misses. *)
Theorem lane_always_has_position (cfg : GameConfig) (window : Window)
    (gates : list GateData) (actions : list Action) (x : Q) :
  (2 <= length (lanePositions cfg))%nat ->
  let s := play cfg window gates initialState actions in
  (targetLane s = 0 \/ targetLane s = 1)
  /\ exists x', Player_laneX cfg (targetLane s) x = Some x'.
Proof.
  intros Hlen s.
  destruct (play_inv cfg window gates actions initialState
              (gameInv_initial cfg gates)) as (Hlane & _).
  fold s in Hlane. split; [exact Hlane |].
  unfold Player_laneX, lookupZ.
  destruct (lanePositions cfg) as [| a [| b l]]; cbn in Hlen; try lia.
  destruct Hlane as [-> | ->]; cbn; eauto.
Qed.

Lemma lane_always_has_position_witness :
  let s := play GAME_CONFIG sampleWindow halfGates initialState
             [Release 40; Frame 1; Release (-10); Frame 1] in
  (targetLane s = 0 \/ targetLane s = 1)
  /\ exists x', Player_laneX GAME_CONFIG (targetLane s) 0 = Some x'.
Proof.
  apply (lane_always_has_position GAME_CONFIG sampleWindow halfGates
           [Release 40; Frame 1; Release (-10); Frame 1] 0).
  cbn. lia.
Defined.

Lemma filter_keeps_all {A} (P : A -> bool) (l : list A) :
  (forall a, In a l -> P a = true) -> List.filter P l = l.
Proof.
  induction l as [| a l IH]; intros H; [reflexivity |].
  cbn [List.filter]. rewrite (H a) by now left.
  f_equal. apply IH. intros b Hb. apply H. now right.
Qed.

Lemma filter_drops_one (l : list ScorePopup) (p : ScorePopup) :
  NoDup (map popup_id l) -> In p l ->
  S (length (List.filter (fun q => negb (popup_id q =? popup_id p)) l))
  = length l.
Proof.
  induction l as [| a l IH]; intros Hnd Hin; [destruct Hin |].
  cbn [map] in Hnd. apply NoDup_cons in Hnd as [Ha Hnd].
  cbn [List.filter length]. destruct Hin as [-> | Hin].
  - rewrite Z.eqb_refl. cbn [negb]. f_equal. f_equal.
    apply filter_keeps_all. intros b Hb.
    destruct (Z.eqb_spec (popup_id b) (popup_id p)) as [Heq | _]; [| reflexivity].
    exfalso. apply Ha. rewrite <- Heq. now apply list_elem_of_In, in_map.
  - destruct (Z.eqb_spec (popup_id a) (popup_id p)) as [Heq | _].
    + exfalso. apply Ha. rewrite Heq. now apply list_elem_of_In, in_map.
    + cbn [negb length]. f_equal. now apply IH.
Qed.

(** X12: popup ids are unique, so completing a popup removes exactly that
    popup.  In every state of a game started from the initial state no
    two queued popups share an id; and [removePopup] with the id of a
    queued popup leaves the others, in their order, and shortens the list
    by one. *)
Theorem removePopup_removes_exactly_one (cfg : GameConfig) (window : Window)
    (gates : list GateData) (actions : list Action) (p : ScorePopup) :
  let s := play cfg window gates initialState actions in
  In p (scorePopups s) ->
  NoDup (map popup_id (scorePopups s))
  /\ (forall q, In q (scorePopups (removePopup (popup_id p) s))
                <-> In q (scorePopups s) /\ q <> p)
  /\ sublist (scorePopups (removePopup (popup_id p) s)) (scorePopups s)
  /\ S (length (scorePopups (removePopup (popup_id p) s)))
     = length (scorePopups s).
Proof.
  intros s Hin.
  destruct (play_inv cfg window gates actions initialState
              (gameInv_initial cfg gates)) as (_ & Hnd & _).
  fold s in Hnd. split; [exact Hnd |].
  unfold removePopup; cbn [scorePopups]. split; [| split].
  - intros q. rewrite List.filter_In. split.
    + intros [Hq Hne]. split; [exact Hq |]. intros ->.
      rewrite Z.eqb_refl in Hne. discriminate.
    + intros [Hq Hne]. split; [exact Hq |].
      destruct (Z.eqb_spec (popup_id q) (popup_id p)) as [Heq | _];
        [| reflexivity].
      exfalso. apply Hne.
      now apply (NoDup_map_In_eq popup_id (scorePopups s)).
  - generalize (scorePopups s). intros l.
    induction l as [| a l IH]; [constructor |].
    cbn [List.filter]. destruct (negb _); now constructor.
  - now apply filter_drops_one.
Qed.

Lemma removePopup_removes_exactly_one_witness :
  let s := play GAME_CONFIG sampleWindow halfGates initialState
             [Frame (5 # 2); Frame (5 # 2)] in
  let p := {| popup_id := 1; popup_value := "+55"; popup_color := "#00ff88";
              popup_x := 80; popup_y := 2400 # 10 |} in
  NoDup (map popup_id (scorePopups s))
  /\ (forall q, In q (scorePopups (removePopup (popup_id p) s))
                <-> In q (scorePopups s) /\ q <> p)
  /\ sublist (scorePopups (removePopup (popup_id p) s)) (scorePopups s)
  /\ S (length (scorePopups (removePopup (popup_id p) s)))
     = length (scorePopups s).
Proof.
  apply (removePopup_removes_exactly_one GAME_CONFIG sampleWindow halfGates
           [Frame (5 # 2); Frame (5 # 2)]).
  vm_compute. right. left. reflexivity.
Defined.

(** X13: the game ends after the last gate, and only once.  In every state
    of a game started from the initial state at most one game-over
    callback is pending; a callback is pending or [gameOver] is set
    exactly when the gate with id [totalGates - 1] has been processed; and
    once [gameOver] is set no callback is pending any more. *)
Theorem game_over_only_after_last_gate (cfg : GameConfig) (window : Window)
    (gates : list GateData) (actions : list Action) :
  let s := play cfg window gates initialState actions in
  (length (timeouts s) <= 1)%nat
  /\ (timeouts s <> [] \/ gameOver s = true
      <-> totalGates cfg - 1 ∈ processedGates s)
  /\ (gameOver s = true ->
      totalGates cfg - 1 ∈ processedGates s /\ timeouts s = []).
Proof.
  intros s.
  destruct (play_inv cfg window gates actions initialState
              (gameInv_initial cfg gates)) as (_ & _ & _ & _ & _ & _ & Htime).
  fold s in Htime. case_bool_decide as Hlast.
  - split; [lia |]. split.
    + split; [auto |]. intros _.
      destruct (timeouts s), (gameOver s); cbn in Htime; auto; lia.
    + intros Hgo. rewrite Hgo in Htime.
      split; [exact Hlast |].
      destruct (timeouts s); [reflexivity | cbn in Htime; lia].
  - split; [lia |]. split.
    + split; [| contradiction].
      intros [Hne | Hgo].
      * destruct (timeouts s); [congruence | cbn in Htime; lia].
      * rewrite Hgo in Htime. lia.
    + intros Hgo. rewrite Hgo in Htime. lia.
Qed.

(** ** The progress indicator *)

Lemma generated_ids (cfg : GameConfig) (src : RandomSource) (k k' : nat)
    (gates : list GateData) :
  unit_interval src ->
  generatedGates cfg src k = Some (gates, k') ->
  map gate_id gates = seqZ 0 (totalGates cfg).
Proof.
  intros Hsrc Hgen.
  destruct (generated_numbered cfg src k k' gates Hsrc Hgen) as [Hnum Hlen].
  rewrite (numbered_ids cfg gates 0 Hnum), Hlen.
  unfold seqZ. now rewrite Nat2Z.id.
Qed.

(** X14: the progress display stays in range.  For generated gates (at
    least one) and every state of a game started from the initial state,
    the popup counter equals the number of processed gates, which is at
    most [totalGates]; the number shown in "Gate n / total" lies between 1
    and [totalGates + 1]; and the bar is between 0 and 100 percent wide. *)
Theorem progress_stays_in_range (cfg : GameConfig) (window : Window)
    (src : RandomSource) (k k' : nat) (gates : list GateData)
    (actions : list Action) :
  unit_interval src ->
  generatedGates cfg src k = Some (gates, k') ->
  0 < totalGates cfg ->
  let s := play cfg window gates initialState actions in
  popupIdCounter s = Z.of_nat (size (processedGates s))
  /\ Z.of_nat (size (processedGates s)) <= totalGates cfg
  /\ 1 <= progressNumber s <= totalGates cfg + 1
  /\ (0 <= progressFill cfg s)%Q /\ (progressFill cfg s <= 100)%Q.
Proof.
  intros Hsrc Hgen Hn s.
  destruct (play_inv cfg window gates actions initialState
              (gameInv_initial cfg gates)) as (_ & _ & _ & Hcnt & Hsub & _).
  fold s in Hcnt, Hsub.
  assert (Hsize : Z.of_nat (size (processedGates s)) <= totalGates cfg).
  { apply subseteq_size in Hsub.
    rewrite (generated_ids cfg src k k' gates Hsrc Hgen) in Hsub.
    rewrite size_list_to_set in Hsub by apply NoDup_seqZ.
    rewrite length_seqZ in Hsub. lia. }
  split; [exact Hcnt |]. split; [exact Hsize |].
  split; [unfold progressNumber; lia |].
  unfold progressFill.
  assert (Hq : (0 < inject_Z (totalGates cfg))%Q)
    by (change 0%Q with (inject_Z 0); now rewrite <- Zlt_Qlt).
  assert (Hlo : (0 <= inject_Z (Z.of_nat (size (processedGates s))))%Q)
    by (change 0%Q with (inject_Z 0); rewrite <- Zle_Qle; lia).
  assert (Hhi : (inject_Z (Z.of_nat (size (processedGates s)))
                 <= inject_Z (totalGates cfg))%Q)
    by now rewrite <- Zle_Qle.
  set (a := inject_Z (Z.of_nat (size (processedGates s)))) in *.
  set (b := inject_Z (totalGates cfg)) in *.
  assert (H0 : (0 <= a / b)%Q).
  { apply Qle_shift_div_l; [exact Hq | lra]. }
  assert (H1 : (a / b <= 1)%Q).
  { apply Qle_shift_div_r; [exact Hq | lra]. }
  split; lra.
Qed.

Lemma progress_stays_in_range_witness :
  let s := play GAME_CONFIG sampleWindow halfGates initialState
             [Frame (5 # 2); Frame (5 # 2)] in
  popupIdCounter s = Z.of_nat (size (processedGates s))
  /\ Z.of_nat (size (processedGates s)) <= totalGates GAME_CONFIG
  /\ 1 <= progressNumber s <= totalGates GAME_CONFIG + 1
  /\ (0 <= progressFill GAME_CONFIG s)%Q /\ (progressFill GAME_CONFIG s <= 100)%Q.
Proof.
  apply (progress_stays_in_range GAME_CONFIG sampleWindow half 0%nat 40%nat).
  - exact half_unit_interval.
  - exact halfGates_generated.
  - reflexivity.
Defined.

(** ** The final score *)

Lemma sublist_last_of_snoc {A} (l k : list A) (x : A) :
  sublist l (k ++ [x]) -> x ∈ l -> x ∉ k -> last l = Some x.
Proof.
  intros Hsub Hin Hfresh.
  apply sublist_app_r in Hsub as (l1 & l2 & -> & Hs1 & Hs2).
  apply elem_of_app in Hin as [Hin | Hin].
  - exfalso. apply Hfresh. eapply elem_of_sublist; eassumption.
  - apply sublist_length in Hs2 as Hlen. cbn in Hlen.
    destruct l2 as [| y [| y' l2]]; cbn in Hlen; try lia.
    + inversion Hin.
    + apply list_elem_of_singleton in Hin as ->. apply last_snoc.
Qed.

Lemma last_map_Some {A B} (f : A -> B) (l : list A) (y : B) :
  last (map f l) = Some y -> exists x, last l = Some x /\ f x = y.
Proof.
  destruct l as [| a l] using rev_ind; [discriminate |].
  rewrite map_app. cbn [map]. rewrite !last_snoc.
  intros H; injection H as <-. eauto.
Qed.

Section FinalScore.

Variable cfg : GameConfig.
Variable window : Window.
Variable gates : list GateData.
Hypothesis spacing_nonneg : (0 <= gateSpacing cfg)%Q.
Hypothesis gates_numbered : numbered cfg 0 gates.
Hypothesis gates_length : length gates = Z.to_nat (totalGates cfg).

Lemma last_gate_is_last_event s forwardDelta lane :
  In (totalGates cfg - 1)
     (map ev_gate (emittedEvents (advance cfg window gates s forwardDelta lane))) ->
  exists evs e,
    emittedEvents (advance cfg window gates s forwardDelta lane) = evs ++ [e]
    /\ ev_gate e = totalGates cfg - 1
    /\ ~ In (totalGates cfg - 1) (map ev_gate evs).
Proof.
  intros Hin.
  destruct (advance_popupInv cfg window gates s forwardDelta lane)
    as (_ & _ & _ & _ & Hsub).
  pose proof (advance_NoDup cfg window gates s forwardDelta lane) as Hnd.
  set (evs := emittedEvents (advance cfg window gates s forwardDelta lane)) in *.
  assert (Hids : map gate_id gates
                 = seqZ 0 (totalGates cfg - 1) ++ [totalGates cfg - 1]).
  { rewrite (numbered_ids cfg gates 0 gates_numbered), gates_length.
    assert (Hn : 0 < totalGates cfg).
    { apply list_elem_of_In in Hin.
      eapply elem_of_sublist in Hin; [| exact Hsub].
      rewrite (numbered_ids cfg gates 0 gates_numbered) in Hin.
      apply elem_of_seqZ in Hin. lia. }
    rewrite Z2Nat.id by lia.
    replace (totalGates cfg) with ((totalGates cfg - 1) + 1) at 1 by lia.
    rewrite seqZ_app by lia. f_equal. }
  rewrite Hids in Hsub.
  assert (Hlast : last (map ev_gate evs) = Some (totalGates cfg - 1)).
  { apply (sublist_last_of_snoc _ _ _ Hsub); [now apply list_elem_of_In |].
    intros Hx. apply elem_of_seqZ in Hx. lia. }
  apply last_map_Some in Hlast as (e & Hlast & He).
  apply last_Some in Hlast as (evs' & Heq).
  exists evs', e. split; [exact Heq |]. split; [exact He |].
  rewrite Heq, map_app in Hnd. apply NoDup_app in Hnd as (_ & Hdisj & _).
  intros Hin'. apply (Hdisj (totalGates cfg - 1)).
  - now apply list_elem_of_In.
  - cbn. rewrite He. apply list_elem_of_here.
Qed.

Lemma finalInv_advance s forwardDelta lane :
  gameInv cfg gates s -> finalInv cfg gates s -> gameOver s = false ->
  (0 <= forwardDelta)%Q ->
  finalInv cfg gates (tk_state (advance cfg window gates s forwardDelta lane)).
Proof.
  intros (_ & _ & _ & _ & _ & _ & Htime) (Hset & Hpend & _) Hgo Hfd.
  set (t := advance cfg window gates s forwardDelta lane).
  assert (Hgo' : gameOver (tk_state t) = false).
  { destruct (advance_inv cfg window gates s forwardDelta lane)
      as (_ & _ & _ & _ & (_ & _ & _ & H & _) & _).
    moved_simpl H. fold t in H. congruence. }
  destruct (decide (totalGates cfg - 1 ∈ processedGates s)) as [Hdone | Hopen].
  - (* the last gate was processed before: nothing resolves *)
    destruct (settled_advance cfg window gates s forwardDelta lane
                (Hset Hdone) Hfd) as [Hnil Hst].
    fold t in Hnil, Hst. unfold finalInv. rewrite Hst.
    split; [intros _; apply settled_moved; [exact (Hset Hdone) | exact Hfd] |].
    split; [exact Hpend | cbn; congruence].
  - rewrite bool_decide_false in Htime by exact Hopen.
    assert (Hnone : timeouts s = [])
      by (destruct (timeouts s); [reflexivity | cbn in Htime; lia]).
    pose proof (advance_timeouts cfg window gates s forwardDelta lane) as Htm.
    pose proof (advance_playerValue cfg window gates s forwardDelta lane) as Hval.
    pose proof (advance_processed cfg window gates s forwardDelta lane) as Hproc.
    fold t in Htm, Hval, Hproc. rewrite Hnone in Htm. cbn [app] in Htm.
    unfold finalInv. split; [| split; [| congruence]].
    + intros Hlast. rewrite Hproc in Hlast.
      apply elem_of_union in Hlast as [Hlast | Hlast]; [| contradiction].
      apply elem_of_list_to_set, list_elem_of_In in Hlast.
      now apply last_gate_settles.
    + intros v Hv. rewrite Htm in Hv.
      assert (Hne : filter (fun e => isLastGate cfg e = true) (emittedEvents t)
                    <> []).
      { intros Habs. rewrite Habs in Hv. destruct Hv. }
      apply isLastGate_filter_In in Hne.
      destruct (last_gate_is_last_event s forwardDelta lane Hne)
        as (evs & e & Heq & He & Hfresh).
      fold t in Heq. rewrite Heq in Hv, Hval.
      rewrite last_snoc in Hval.
      rewrite filter_app, (isLastGate_filter_nil cfg evs Hfresh) in Hv.
      rewrite filter_cons, filter_nil in Hv.
      rewrite decide_True in Hv by (unfold isLastGate; lia).
      cbn in Hv. destruct Hv as [<- | []]. now rewrite Hval.
Qed.

Lemma finalInv_dispatch s a :
  (0 <= playerSpeed cfg)%Q ->
  gameInv cfg gates s -> finalInv cfg gates s -> clockAction a ->
  finalInv cfg gates (dispatch cfg window gates s a).
Proof.
  intros Hspeed Hinv Hfin Hclock.
  destruct a as [delta | dx | | id]; cbn [dispatch].
  - destruct (gameOver s) eqn:Hgo; [exact Hfin |].
    rewrite Player_useFrame_advance. apply finalInv_advance; auto.
    cbn in Hclock. nra.
  - destruct (gameOver s); [exact Hfin |].
    unfold onPanResponderRelease.
    destruct (Qltb 30 (Qabs dx)); [| exact Hfin].
    destruct (Qltb 0 dx); exact Hfin.
  - destruct Hfin as (Hset & Hpend & Hfs).
    unfold fireTimeout. destruct (timeouts s) as [| v rest] eqn:Ht.
    + split; [exact Hset |]. split; [rewrite Ht; exact Hpend | exact Hfs].
    + unfold finalInv. cbn. split; [exact Hset |]. split.
      * intros w Hw. apply Hpend. now right.
      * intros _. apply Hpend. now left.
  - exact Hfin.
Qed.

Lemma finalInv_play actions : forall s,
  (0 <= playerSpeed cfg)%Q ->
  gameInv cfg gates s -> finalInv cfg gates s ->
  Forall clockAction actions ->
  finalInv cfg gates (play cfg window gates s actions).
Proof.
  induction actions as [| a actions IH]; intros s Hspeed Hinv Hfin Hclock;
    [exact Hfin |].
  apply Forall_cons in Hclock as [Ha Hclock].
  apply (IH (dispatch cfg window gates s a)); auto.
  - now apply gameInv_dispatch.
  - now apply finalInv_dispatch.
Qed.

End FinalScore.

(** X16: the end screen shows the score the player ended with.  For
    generated gates with a non-negative spacing and a non-negative player
    speed, in a game started from the initial state whose frames carry
    non-negative time steps: whenever [gameOver] is set, [finalScore]
    equals [playerValue] and the last gate has been processed. *)
Theorem final_score_is_the_score (cfg : GameConfig) (window : Window)
    (src : RandomSource) (k k' : nat) (gates : list GateData)
    (actions : list Action) :
  unit_interval src ->
  generatedGates cfg src k = Some (gates, k') ->
  (0 <= gateSpacing cfg)%Q -> (0 <= playerSpeed cfg)%Q ->
  Forall clockAction actions ->
  let s := play cfg window gates initialState actions in
  gameOver s = true ->
  finalScore s = playerValue s /\ totalGates cfg - 1 ∈ processedGates s.
Proof.
  intros Hsrc Hgen Hsp Hspeed Hclock s Hgo.
  destruct (generated_numbered cfg src k k' gates Hsrc Hgen) as [Hnum Hlen].
  assert (Hfin0 : finalInv cfg gates initialState).
  { unfold finalInv, initialState. cbn. split; [set_solver |].
    split; [intros v Hv; destruct Hv | discriminate]. }
  destruct (finalInv_play cfg window gates Hsp Hnum Hlen actions initialState
              Hspeed (gameInv_initial cfg gates) Hfin0 Hclock)
    as (_ & _ & Hfs).
  fold s in Hfs. split; [now apply Hfs |].
  destruct (play_inv cfg window gates actions initialState
              (gameInv_initial cfg gates)) as (_ & _ & _ & _ & _ & _ & Htime).
  fold s in Htime. rewrite Hgo in Htime.
  case_bool_decide as Hlast; [exact Hlast | lia].
Qed.

Lemma final_score_is_the_score_witness :
  let s := play GAME_CONFIG sampleWindow halfGates initialState
             [Frame 25; Frame 1; TimeoutFires] in
  finalScore s = playerValue s
  /\ totalGates GAME_CONFIG - 1 ∈ processedGates s.
Proof.
  apply (final_score_is_the_score GAME_CONFIG sampleWindow half 0%nat 40%nat).
  - exact half_unit_interval.
  - exact halfGates_generated.
  - vm_compute. discriminate.
  - vm_compute. discriminate.
  - repeat constructor; vm_compute; discriminate.
  - vm_compute. reflexivity.
Defined.

(** ** What a game never does *)

Lemma dispatch_fields (cfg : GameConfig) (window : Window)
    (gates : list GateData) (s : GameState) (a : Action) :
  (forall delta, a <> Frame delta) \/ gameOver s = true ->
  processedGates (dispatch cfg window gates s a) = processedGates s
  /\ playerValue (dispatch cfg window gates s a) = playerValue s
  /\ currentZ (dispatch cfg window gates s a) = currentZ s.
Proof.
  intros Hcase. destruct a as [delta | dx | | id]; cbn [dispatch].
  - destruct Hcase as [Hne | ->]; [now destruct (Hne delta) | auto].
  - destruct (gameOver s); [auto |]. unfold onPanResponderRelease.
    destruct (Qltb 30 (Qabs dx)); [| auto]. destruct (Qltb 0 dx); auto.
  - unfold fireTimeout. destruct (timeouts s); auto.
  - auto.
Qed.

Lemma dispatch_cases (cfg : GameConfig) (window : Window)
    (gates : list GateData) (s : GameState) (a : Action) :
  (processedGates (dispatch cfg window gates s a) = processedGates s
   /\ playerValue (dispatch cfg window gates s a) = playerValue s
   /\ currentZ (dispatch cfg window gates s a) = currentZ s)
  \/ exists delta,
       a = Frame delta
       /\ dispatch cfg window gates s a
          = tk_state (advance cfg window gates s
                        (playerSpeed cfg * (delta * 60))%Q (targetLane s)).
Proof.
  destruct a as [delta | dx | | id];
    try (left; apply dispatch_fields; left; intros d; discriminate).
  destruct (gameOver s) eqn:Hgo.
  - left. apply dispatch_fields. now right.
  - right. exists delta. split; [reflexivity |].
    cbn [dispatch]. rewrite Hgo. now rewrite Player_useFrame_advance.
Qed.

Lemma play_cons (cfg : GameConfig) (window : Window) (gates : list GateData)
    (s : GameState) (a : Action) (actions : list Action) :
  play cfg window gates s (a :: actions)
  = play cfg window gates (dispatch cfg window gates s a) actions.
Proof. reflexivity. Qed.

(** X17: the score changes only when a gate is processed.  Along any
    actions from any state [processedGates] only grows, and if it is the
    same at the end as at the start then so is the score. *)
Theorem score_changes_only_with_a_gate (cfg : GameConfig) (window : Window)
    (gates : list GateData) (actions : list Action) (s : GameState) :
  let s' := play cfg window gates s actions in
  processedGates s ⊆ processedGates s'
  /\ (processedGates s' = processedGates s -> playerValue s' = playerValue s).
Proof.
  revert s. induction actions as [| a actions IH]; intros s; cbn zeta.
  - split; [set_solver | reflexivity].
  - rewrite play_cons.
    destruct (IH (dispatch cfg window gates s a)) as [Hsub Hsame].
    destruct (dispatch_cases cfg window gates s a)
      as [(Hp & Hv & _) | (delta & -> & Hd)].
    + rewrite Hp in Hsub, Hsame. rewrite Hv in Hsame. auto.
    + pose proof (advance_processed cfg window gates s
                    (playerSpeed cfg * (delta * 60))%Q (targetLane s)) as Hproc.
      rewrite <- Hd in Hproc.
      split; [rewrite Hproc in Hsub; set_solver |].
      intros Heq.
      assert (Hstep : processedGates (dispatch cfg window gates s (Frame delta))
                      = processedGates s) by set_solver.
      rewrite Hsame by (rewrite Heq; now rewrite Hstep).
      rewrite Hd, advance_playerValue.
      destruct (emittedEvents _) as [| e evs] eqn:Hev; [reflexivity |].
      exfalso.
      apply (advance_event_fresh cfg window gates s
               (playerSpeed cfg * (delta * 60))%Q (targetLane s) e).
      * rewrite Hev. now left.
      * rewrite <- Hstep, Hproc. rewrite ?Hev. cbn. set_solver.
Qed.

(** X18: the runner never retreats.  With a non-negative player speed and
    frames that carry non-negative time steps, no sequence of actions
    takes the runner behind where it was. *)
Theorem runner_never_retreats (cfg : GameConfig) (window : Window)
    (gates : list GateData) (actions : list Action) (s : GameState) :
  (0 <= playerSpeed cfg)%Q ->
  Forall clockAction actions ->
  (currentZ s <= currentZ (play cfg window gates s actions))%Q.
Proof.
  intros Hspeed. revert s.
  induction actions as [| a actions IH]; intros s Hclock; [cbn; lra |].
  apply Forall_cons in Hclock as [Ha Hclock].
  rewrite play_cons.
  eapply Qle_trans; [| apply (IH _ Hclock)].
  destruct (dispatch_cases cfg window gates s a)
    as [(_ & _ & ->) | (delta & -> & ->)]; [lra |].
  rewrite advance_currentZ. cbn in Ha. nra.
Qed.

Lemma runner_never_retreats_witness :
  (currentZ initialState
   <= currentZ (play GAME_CONFIG sampleWindow halfGates initialState
                  [Frame 1; Release 40; Frame (1 # 2)]))%Q.
Proof.
  apply (runner_never_retreats GAME_CONFIG sampleWindow halfGates).
  - vm_compute. discriminate.
  - repeat constructor; vm_compute; discriminate.
Defined.
